(** * A shallow embedding of [bot.py]

    The program polls a fixed list of feeds, filters the entries against a
    keyword pattern and relays the matches to a chat transport through a
    rate-limited queue.  Everything the program keeps between two
    statements is a field of [state]; everything it reads from outside
    (clock readings, transport responses, feed contents) is an explicit
    argument of the function that consumes it. *)

From Stdlib Require Import Ascii String ZArith QArith Qround Qpower Qabs.
From Stdlib Require Import Bool Lia List.
Import ListNotations.

Local Open Scope Z_scope.

(** ** Text

    A Python [str] is a sequence of code points. *)

Definition char := Z.
Definition text := list char.

Definition str (s : string) : text :=
  map (fun a => Z.of_N (N_of_ascii a)) (list_ascii_of_string s).

Definition text_eqb (a b : text) : bool :=
  if list_eq_dec Z.eq_dec a b then true else false.

(** ** Double-precision arithmetic

    A Python [float] is an IEEE 754 binary64 number.  Every finite one is
    a rational, and it is held here as that rational; an operation on
    floats is the operation on the rationals followed by the rounding to
    the nearest double, the one with the even mantissa when two are
    equally near.  The doubles around [q] are the multiples of
    [2 ^ ulp_exp q]: 53 bits of mantissa, and no grid finer than
    [2 ^ -1074], that of the subnormal numbers.  No bound is put on the
    exponent from above: the numbers rounded here are differences of
    clock readings and of the send interval, far from [2 ^ 1024]. *)

(** [e] with [2 ^ e <= q < 2 ^ (e + 1)], for [0 < q]. *)
Definition ilog2 (q : Q) : Z :=
  let e := Z.log2 (Qnum q) - Z.log2 (Z.pos (Qden q)) in
  if Qle_bool (2 ^ e) q then e else e - 1.

(** The nearest integer, the even one of two that are equally near. *)
Definition rint (x : Q) : Z :=
  let n := Qfloor x in
  match (x - inject_Z n ?= 1 # 2)%Q with
  | Lt => n
  | Eq => if Z.even n then n else n + 1
  | Gt => n + 1
  end.

Definition ulp_exp (q : Q) : Z := Z.max (ilog2 (Qabs q) - 52) (-1074).

Definition round_double (q : Q) : Q :=
  if Qeq_bool q 0 then 0%Q
  else (inject_Z (rint (q / 2 ^ ulp_exp q)) * 2 ^ ulp_exp q)%Q.

(** [x - y] on floats. *)
Definition fsub (x y : Q) : Q := round_double (x - y).

(** ** Settings (lines 45-52) *)

Definition HEARTBEAT_INTERVAL : Q := 1800 # 1.
Definition MAX_SEEN : nat := 3000.

(** The literal [1.2] is the double nearest to 12/10. *)
Definition SEND_INTERVAL : Q :=
  Eval vm_compute in Qred (round_double (12 # 10)).
Definition BACKOFF_START : Z := 5.
Definition BACKOFF_MAX : Z := 120.

(** Strict comparison of two clock readings, as a boolean. *)
Definition Qltb (a b : Q) : bool := negb (Qle_bool b a).

(** ** Process state (lines 64-68)

    [seen] is the [OrderedDict]: an association list in insertion order,
    oldest entry first.  [queue] is the [deque], head first. *)

Record state := mkState {
  seen : list (text * Q);
  queue : list text;
  last_heartbeat : Q;
  last_send : Q;
  backoff : Z
}.

Definition initial : state :=
  {| seen := []; queue := []; last_heartbeat := 0; last_send := 0;
     backoff := 0 |}.

Definition set_seen (s : list (text * Q)) (st : state) : state :=
  mkState s (queue st) (last_heartbeat st) (last_send st) (backoff st).
Definition set_queue (q : list text) (st : state) : state :=
  mkState (seen st) q (last_heartbeat st) (last_send st) (backoff st).
Definition set_last_heartbeat (t : Q) (st : state) : state :=
  mkState (seen st) (queue st) t (last_send st) (backoff st).
Definition set_last_send (t : Q) (st : state) : state :=
  mkState (seen st) (queue st) (last_heartbeat st) t (backoff st).
Definition set_backoff (b : Z) (st : state) : state :=
  mkState (seen st) (queue st) (last_heartbeat st) (last_send st) b.

(** ** Dispatcher (lines 93-135) *)

(** [queue.append(msg)] *)
Definition enqueue (msg : text) (st : state) : state :=
  set_queue (queue st ++ [msg]) st.

(** [queue.appendleft(msg)] *)
Definition appendleft (msg : text) (st : state) : state :=
  set_queue (msg :: queue st) st.

(** What [session.post] did: it returned a response with a status code, or
    it raised. *)
Inductive response :=
| Status (code : Z)
| Raised.

(** What one call of [send_worker] reads from outside: the clock at line
    105, the outcome of the post, the clock at line 130. *)
Record send_env := mkSendEnv {
  t_wait : Q;
  resp : response;
  t_done : Q
}.

(** [min(backoff * 2 if backoff else BACKOFF_START, BACKOFF_MAX)] *)
Definition escalate (b : Z) : Z :=
  Z.min (if b =? 0 then BACKOFF_START else b * 2) BACKOFF_MAX.

Definition send_worker (env : send_env) (st : state) : state :=
  match queue st with
  | [] => st
  | msg :: rest =>
      let st1 := set_queue rest st in                 (* popleft *)
      match resp env with
      | Status code =>
          if code =? 429
          then appendleft msg (set_backoff (escalate (backoff st1)) st1)
          else set_last_send (t_done env) (set_backoff 0 st1)
      | Raised =>
          set_backoff (escalate (backoff st1)) (appendleft msg st1)
      end
  end.

(** The calls [send_worker] makes on the outside world, in order. *)
Inductive event :=
| Sleep (seconds : Q)
| Post (body : text).

Definition send_worker_io (env : send_env) (st : state) : list event :=
  match queue st with
  | [] => []
  | msg :: _ =>
      (if 0 <? backoff st then [Sleep (inject_Z (backoff st))] else [])
      ++ (let elapsed := fsub (t_wait env) (last_send st) in
          let wait := fsub SEND_INTERVAL elapsed in
          if Qltb 0 wait then [Sleep wait] else [])
      ++ [Post (firstn 4000 msg)]
  end.

(** [while queue: send_worker()] (lines 190-191).  The loop runs as long as
    the queue is not empty; the list holds what the outside world answers
    to the successive calls, so the loop is followed for as many calls as
    there are answers. *)
Fixpoint drain (envs : list send_env) (st : state) : state :=
  match envs with
  | [] => st
  | env :: envs' =>
      match queue st with
      | [] => st
      | _ :: _ => drain envs' (send_worker env st)
      end
  end.

(** ** Regular-expression substitution

    [re.sub(pattern, repl, s)] replaces the leftmost non-overlapping matches
    of [pattern], scanning from left to right.  The pattern is given here
    by what it does at one position: [m s] is [Some (len, r)] when the
    pattern matches the first [len] characters of [s] and the match is
    replaced by [r].  None of the patterns below matches the empty string.
    [skip] counts the characters of the current match that are still to be
    passed over. *)

Fixpoint re_sub (m : text -> option (nat * text)) (skip : nat) (s : text)
  : text :=
  match s with
  | [] => []
  | c :: t =>
      match skip with
      | S k => re_sub m k t
      | O =>
          match m s with
          | Some (len, r) => r ++ re_sub m (Nat.pred len) t
          | None => c :: re_sub m 0 t
          end
      end
  end.

(** Code that may raise returns an option; [None] is the exception. *)
Notation "x <- c ;; k" :=
  (match c with Some x => k | None => None end)
  (at level 61, c at next level, right associativity).

(** [re.sub(pattern, function, s)]: the replacement of a match is computed
    by a function, which may raise; [m s] is then [Some (len, None)]. *)
Fixpoint re_sub_call (m : text -> option (nat * option text)) (skip : nat)
  (s : text) : option text :=
  match s with
  | [] => Some []
  | c :: t =>
      match skip with
      | S k => re_sub_call m k t
      | O =>
          match m s with
          | Some (len, Some r) =>
              rest <- re_sub_call m (Nat.pred len) t ;; Some (r ++ rest)
          | Some (_, None) => None
          | None => rest <- re_sub_call m 0 t ;; Some (c :: rest)
          end
      end
  end.

(** The longest prefix of [s] whose characters all satisfy [p]. *)
Fixpoint take_while (p : char -> bool) (s : text) : text :=
  match s with
  | [] => []
  | c :: t => if p c then c :: take_while p t else []
  end.

Fixpoint drop_while (p : char -> bool) (s : text) : text :=
  match s with
  | [] => []
  | c :: t => if p c then drop_while p t else s
  end.

(** ** Character classes *)

Definition AMP : char := 38.     (* & *)
Definition LT : char := 60.      (* < *)
Definition GT : char := 62.      (* > *)
Definition QUOT : char := 34.    (* double quote *)
Definition APOS : char := 39.    (* ' *)
Definition SEMI : char := 59.    (* ; *)
Definition HASH : char := 35.    (* # *)
Definition SPACE : char := 32.

Definition in_range (lo hi c : char) : bool := (lo <=? c) && (c <=? hi).

(** [[0-9]] *)
Definition is_digit (c : char) : bool := in_range 48 57 c.

(** [[0-9a-fA-F]] *)
Definition is_hexdigit (c : char) : bool :=
  in_range 48 57 c || in_range 97 102 c || in_range 65 70 c.

(** [[^\t\n\f <&#;]] *)
Definition is_name_char (c : char) : bool :=
  negb (existsb (Z.eqb c) [9; 10; 12; SPACE; LT; AMP; HASH; SEMI]).

(** Whitespace of [str]: what [\s] matches in a [str] pattern and what
    [str.strip()] removes. *)
Definition is_space (c : char) : bool :=
  in_range 9 13 c || in_range 28 32 c || (c =? 133) || (c =? 160)
  || (c =? 5760) || in_range 8192 8202 c || (c =? 8232) || (c =? 8233)
  || (c =? 8239) || (c =? 8287) || (c =? 12288).

(** ** [html.unescape] and [html.escape] of the standard library *)

Definition digit_value (c : char) : Z :=
  if in_range 48 57 c then c - 48
  else if in_range 97 102 c then c - 87
  else c - 55.

(** The value of a string of digits of the base. *)
Definition int_of (base : Z) (digits : text) : Z :=
  fold_left (fun acc d => acc * base + digit_value d) digits 0.

(** [s.rstrip(';')] *)
Definition rstrip_semi (s : text) : text :=
  rev (drop_while (Z.eqb SEMI) (rev s)).

Definition invalid_charrefs : list (Z * char) :=
  [ (0x00, 0xfffd); (0x0d, 0x0d); (0x80, 0x20ac); (0x81, 0x81);
    (0x82, 0x201a); (0x83, 0x0192); (0x84, 0x201e); (0x85, 0x2026);
    (0x86, 0x2020); (0x87, 0x2021); (0x88, 0x02c6); (0x89, 0x2030);
    (0x8a, 0x0160); (0x8b, 0x2039); (0x8c, 0x0152); (0x8d, 0x8d);
    (0x8e, 0x017d); (0x8f, 0x8f); (0x90, 0x90); (0x91, 0x2018);
    (0x92, 0x2019); (0x93, 0x201c); (0x94, 0x201d); (0x95, 0x2022);
    (0x96, 0x2013); (0x97, 0x2014); (0x98, 0x02dc); (0x99, 0x2122);
    (0x9a, 0x0161); (0x9b, 0x203a); (0x9c, 0x0153); (0x9d, 0x9d);
    (0x9e, 0x017e); (0x9f, 0x0178) ].

Definition invalid_codepoint (n : Z) : bool :=
  in_range 0x1 0x8 n || in_range 0xe 0x1f n || in_range 0x7f 0x9f n
  || in_range 0xfdd0 0xfdef n || (n =? 0xb)
  || (in_range 0xfffe 0x10ffff n && (0xfffe <=? Z.land n 0xffff)).

Fixpoint assoc {A B : Type} (eqb : A -> A -> bool) (k : A)
  (l : list (A * B)) : option B :=
  match l with
  | [] => None
  | (k', v) :: l' => if eqb k k' then Some v else assoc eqb k l'
  end.

(** ** [str.encode()] and [hashlib.sha256] of the standard library *)

(** UTF-8, strict: a surrogate (or a number that is no code point) makes
    [encode] raise, which is [None] here. *)
Definition utf8_char (c : char) : option (list Z) :=
  if c <? 0 then None
  else if c <? 0x80 then Some [c]
  else if c <? 0x800 then
    Some [Z.lor 0xC0 (Z.shiftr c 6); Z.lor 0x80 (Z.land c 0x3F)]
  else if c <? 0x10000 then
    if in_range 0xD800 0xDFFF c then None
    else Some [Z.lor 0xE0 (Z.shiftr c 12);
               Z.lor 0x80 (Z.land (Z.shiftr c 6) 0x3F);
               Z.lor 0x80 (Z.land c 0x3F)]
  else if c <=? 0x10FFFF then
    Some [Z.lor 0xF0 (Z.shiftr c 18);
          Z.lor 0x80 (Z.land (Z.shiftr c 12) 0x3F);
          Z.lor 0x80 (Z.land (Z.shiftr c 6) 0x3F);
          Z.lor 0x80 (Z.land c 0x3F)]
  else None.

Fixpoint encode (s : text) : option (list Z) :=
  match s with
  | [] => Some []
  | c :: t =>
      match utf8_char c, encode t with
      | Some b, Some bs => Some (b ++ bs)
      | _, _ => None
      end
  end.

Module Sha256.

Definition w32 (x : Z) : Z := Z.land x 0xffffffff.
Definition add (x y : Z) : Z := w32 (x + y).
Definition rotr (n x : Z) : Z :=
  Z.lor (Z.shiftr x n) (w32 (Z.shiftl x (32 - n))).
Definition shr (n x : Z) : Z := Z.shiftr x n.

Definition Ch (x y z : Z) : Z :=
  Z.lxor (Z.land x y) (Z.land (Z.lxor x 0xffffffff) z).
Definition Maj (x y z : Z) : Z :=
  Z.lxor (Z.lxor (Z.land x y) (Z.land x z)) (Z.land y z).
Definition Sigma0 (x : Z) : Z :=
  Z.lxor (Z.lxor (rotr 2 x) (rotr 13 x)) (rotr 22 x).
Definition Sigma1 (x : Z) : Z :=
  Z.lxor (Z.lxor (rotr 6 x) (rotr 11 x)) (rotr 25 x).
Definition sigma0 (x : Z) : Z :=
  Z.lxor (Z.lxor (rotr 7 x) (rotr 18 x)) (shr 3 x).
Definition sigma1 (x : Z) : Z :=
  Z.lxor (Z.lxor (rotr 17 x) (rotr 19 x)) (shr 10 x).

(** The round constants and the initial hash value are the first 32 bits
    of the fractional parts of the cube roots, respectively square roots,
    of the first primes. *)
Definition primes : list Z :=
  [ 2; 3; 5; 7; 11; 13; 17; 19; 23; 29; 31; 37; 41; 43; 47; 53; 59; 61; 67;
    71; 73; 79; 83; 89; 97; 101; 103; 107; 109; 113; 127; 131; 137; 139;
    149; 151; 157; 163; 167; 173; 179; 181; 191; 193; 197; 199; 211; 223;
    227; 229; 233; 239; 241; 251; 257; 263; 269; 271; 277; 281; 283; 293;
    307; 311 ].

(** [cube_root k 0 n] is the largest [r] below [2 ^ k] with [r ^ 3 <= n],
    found bit by bit from the top. *)
Fixpoint cube_root (k : nat) (r n : Z) : Z :=
  match k with
  | O => r
  | S k' =>
      let r' := r + 2 ^ Z.of_nat k' in
      if r' * r' * r' <=? n then cube_root k' r' n else cube_root k' r n
  end.

Definition K : list Z :=
  Eval vm_compute in
  map (fun p => w32 (cube_root 40 0 (p * 2 ^ 96))) primes.

Definition H0 : list Z :=
  Eval vm_compute in
  map (fun p => w32 (Z.sqrt (p * 2 ^ 64))) (firstn 8 primes).

(** Big-endian bytes of [x], [n] of them. *)
Fixpoint be_bytes (n : nat) (x : Z) : list Z :=
  match n with
  | O => []
  | S n' => be_bytes n' (Z.shiftr x 8) ++ [Z.land x 0xff]
  end.

Definition pad (msg : list Z) : list Z :=
  let len := Z.of_nat (length msg) in
  msg ++ [0x80] ++ repeat 0 (Z.to_nat ((55 - len) mod 64))
      ++ be_bytes 8 (8 * len).

Fixpoint words (n : nat) (bytes : list Z) : list Z :=
  match n with
  | O => []
  | S n' =>
      match bytes with
      | a :: b :: c :: d :: rest =>
          (Z.shiftl a 24 + Z.shiftl b 16 + Z.shiftl c 8 + d)
            :: words n' rest
      | _ => []
      end
  end.

(** The message schedule, most recent word first. *)
Fixpoint schedule (n : nat) (w : list Z) : list Z :=
  match n with
  | O => w
  | S n' =>
      let x := add (add (sigma1 (nth 1 w 0)) (nth 6 w 0))
                   (add (sigma0 (nth 14 w 0)) (nth 15 w 0)) in
      schedule n' (x :: w)
  end.

Definition round (s : list Z) (kw : Z * Z) : list Z :=
  match s with
  | [a; b; c; d; e; f; g; h] =>
      let t1 := add (add (add h (Sigma1 e)) (add (Ch e f g) (fst kw)))
                    (snd kw) in
      let t2 := add (Sigma0 a) (Maj a b c) in
      [add t1 t2; a; b; c; add d t1; e; f; g]
  | _ => s
  end.

Definition compress (h : list Z) (block : list Z) : list Z :=
  let w := rev (schedule 48 (rev (words 16 block))) in
  let s := fold_left round (combine K w) h in
  map (fun p => add (fst p) (snd p)) (combine h s).

Fixpoint blocks (n : nat) (h : list Z) (bytes : list Z) : list Z :=
  match n with
  | O => h
  | S n' =>
      match bytes with
      | [] => h
      | _ :: _ => blocks n' (compress h (firstn 64 bytes)) (skipn 64 bytes)
      end
  end.

Definition digest (msg : list Z) : list Z :=
  let p := pad msg in
  flat_map (be_bytes 4) (blocks (length p) H0 p).

Definition hex_digit (d : Z) : char := if d <? 10 then 48 + d else 87 + d.

Definition hexdigest (msg : list Z) : text :=
  flat_map (fun b => [hex_digit (Z.shiftr b 4); hex_digit (Z.land b 15)])
           (digest msg).

End Sha256.

Section Bot.

(** The table [html.entities.html5] has 2231 entries.  The entries for
    the markup characters are written out; [html5_rest] stands for the
    others. *)
Variable html5_rest : text -> option text.

(** The interpreter's limit on the number of digits [int] converts from a
    decimal string ([sys.get_int_max_str_digits()], 4300 unless set
    otherwise); 0 is no limit.  A longer string makes [int] raise
    [ValueError].  The limit is not applied to strings of 640 digits or
    less, nor to base 16. *)
Variable int_max_str_digits : nat.

(** [int(digits)] *)
Definition int_decimal (digits : text) : option Z :=
  let n := length digits in
  if ((0 <? int_max_str_digits) && (640 <? n)
      && (int_max_str_digits <? n))%nat
  then None
  else Some (int_of 10 digits).

(** [int(digits, 16)] *)
Definition int_hex (digits : text) : option Z := Some (int_of 16 digits).

Definition html5_listed : list (text * text) :=
  Eval cbv in
  [ (str "amp;", [AMP]); (str "amp", [AMP]);
    (str "lt;", [LT]); (str "lt", [LT]);
    (str "gt;", [GT]); (str "gt", [GT]);
    (str "quot;", [QUOT]); (str "quot", [QUOT]);
    (str "apos;", [APOS]) ].

Definition html5 (name : text) : option text :=
  match assoc text_eqb name html5_listed with
  | Some r => Some r
  | None => html5_rest name
  end.

(** [for x in range(len(s)-1, 1, -1): if s[:x] in _html5: ...], entered
    with [x = len(s) - 1]. *)
Fixpoint longest_name (x : nat) (s : text) : option text :=
  match x with
  | S x' =>
      if (2 <=? x)%nat then
        match html5 (firstn x s) with
        | Some r => Some (r ++ skipn x s)
        | None => longest_name x' s
        end
      else None
  | O => None
  end.

(** The character a numeric reference stands for. *)
Definition numeric_charref (num : Z) : text :=
  match assoc Z.eqb num invalid_charrefs with
  | Some c => [c]
  | None =>
      if in_range 0xD800 0xDFFF num || (0x10FFFF <? num)
      then [0xFFFD]
      else if invalid_codepoint num then []
      else [num]
  end.

(** [_replace_charref], on the text of group 1.  Indexing an empty string
    raises; the pattern never gives such a group. *)
Definition replace_charref (s : text) : option text :=
  match s with
  | [] => None
  | c0 :: s1 =>
      if c0 =? HASH then
        match s1 with
        | c1 :: s2 =>
            num <- (if (c1 =? 120) || (c1 =? 88)        (* s[1] in 'xX' *)
                    then int_hex (rstrip_semi s2)
                    else int_decimal (rstrip_semi s1)) ;;
            Some (numeric_charref num)
        | [] => None
        end
      else
        match html5 s with
        | Some r => Some r
        | None =>
            match longest_name (Nat.pred (length s)) s with
            | Some r => Some r
            | None => Some (AMP :: s)
            end
        end
  end.

(** An optional [;] after a run. *)
Definition opt_semi (rest : text) : text :=
  match rest with
  | c :: _ => if c =? SEMI then [SEMI] else []
  | [] => []
  end.

(** Group 1 of [_charref] at the characters after the [&]:
    [#[0-9]+;?], else [#[xX][0-9a-fA-F]+;?], else
    [[^\t\n\f <&#;]{1,32};?]. *)
Definition charref_group (t : text) : option text :=
  match t with
  | [] => None
  | c :: t1 =>
      if c =? HASH then
        match take_while is_digit t1 with
        | (_ :: _) as ds =>
            Some (HASH :: ds ++ opt_semi (skipn (length ds) t1))
        | [] =>
            match t1 with
            | x :: t2 =>
                if (x =? 120) || (x =? 88) then
                  match take_while is_hexdigit t2 with
                  | (_ :: _) as hs =>
                      Some (HASH :: x :: hs
                              ++ opt_semi (skipn (length hs) t2))
                  | [] => None
                  end
                else None
            | [] => None
            end
        end
      else
        match firstn 32 (take_while is_name_char t) with
        | (_ :: _) as name =>
            Some (name ++ opt_semi (skipn (length name) t))
        | [] => None
        end
  end.

(** [_charref] at one position, with its replacement. *)
Definition charref (s : text) : option (nat * option text) :=
  match s with
  | c :: t =>
      if c =? AMP then
        match charref_group t with
        | Some g => Some (S (length g), replace_charref g)
        | None => None
        end
      else None
  | [] => None
  end.

Definition unescape (s : text) : option text :=
  if negb (existsb (Z.eqb AMP) s) then Some s else re_sub_call charref 0 s.

(** [s.replace(old, new)] for a one-character [old]. *)
Definition replace (old : char) (new : text) (s : text) : text :=
  flat_map (fun c => if c =? old then new else [c]) s.

Definition AMP_ENT : text := Eval cbv in str "&amp;".
Definition LT_ENT : text := Eval cbv in str "&lt;".
Definition GT_ENT : text := Eval cbv in str "&gt;".
Definition QUOT_ENT : text := Eval cbv in str "&quot;".
Definition APOS_ENT : text := Eval cbv in str "&#x27;".

Definition escape (s : text) : text :=
  let s := replace AMP AMP_ENT s in
  let s := replace LT LT_ENT s in
  let s := replace GT GT_ENT s in
  let s := replace QUOT QUOT_ENT s in
  replace APOS APOS_ENT s.

(** ** [safe] (lines 81-87) *)

(** [<[^>]+>] at one position; the match is deleted. *)
Definition tag (s : text) : option (nat * text) :=
  match s with
  | c :: t =>
      if c =? LT then
        match take_while (fun x => negb (x =? GT)) t with
        | (_ :: _) as body =>
            match skipn (length body) t with
            | _ :: _ => Some (S (S (length body)), [])
            | [] => None
            end
        | [] => None
        end
      else None
  | [] => None
  end.

(** [\s+] at one position; the match is replaced by one space. *)
Definition spaces (s : text) : option (nat * text) :=
  match take_while is_space s with
  | (_ :: _) as run => Some (length run, [SPACE])
  | [] => None
  end.

(** [str.strip()]: whitespace is removed at the left end, then at the
    right end. *)
Definition lstrip (s : text) : text := drop_while is_space s.
Definition rstrip (s : text) : text := rev (drop_while is_space (rev s)).
Definition strip (s : text) : text := rstrip (lstrip s).

Definition safe (t : text) : option text :=
  match t with
  | [] => Some []
  | _ :: _ =>
      t <- unescape t ;;
      let t := re_sub tag 0 t in
      let t := strip (re_sub spaces 0 t) in
      Some (escape t)
  end.


(** ** Fingerprint (lines 76-79) *)

(** A feed entry; [entry.get(field, "")] reads an absent field as the
    empty string, so every field is a string here. *)
Record entry := mkEntry {
  id : text;
  link : text;
  title : text;
  summary : text
}.

(** [None] is the exception [encode] raises. *)
Definition post_id (e : entry) : option text :=
  option_map Sha256.hexdigest (encode (id e ++ link e)).

(** ** Keyword pattern (lines 33-40 and 59-62) *)

Definition KEYWORDS : list text :=
  Eval cbv in
  map str
    [ "problem"; "issue"; "error"; "bug"; "glitch"; "crash"; "not working";
      "failed"; "lost"; "scammed"; "hacked"; "stolen"; "fraud";
      "phishing"; "locked"; "banned"; "kyc"; "login";
      "withdrawal"; "deposit"; "balance"; "urgent"; "wallet";
      "seed phrase"; "private key"; "network"; "outage"; "downtime";
      "exploit"; "attack"; "lawsuit"; "regulation" ]%string.

(** The alphanumeric test of the Unicode database, for the code points
    above ASCII. *)
Variable unicode_alnum : char -> bool.

(** The letters above ASCII that [re.IGNORECASE] identifies with an ASCII
    letter: dotted capital I, dotless i, long s, Kelvin sign. *)
Definition folding_letters : list char := [0x130; 0x131; 0x17f; 0x212a].

(** [\w] in a [str] pattern. *)
Definition is_word (c : char) : bool :=
  if c <? 128 then
    in_range 48 57 c || in_range 65 90 c || (c =? 95) || in_range 97 122 c
  else existsb (Z.eqb c) folding_letters || unicode_alnum c.

(** Does the character [c] of the text match the pattern character [p]
    under [re.IGNORECASE]?  [p] is a lower-case ASCII letter or a space,
    as every character of [KEYWORDS] is. *)
Definition ci_char (p c : char) : bool :=
  (c =? p)
  || (in_range 97 122 p && (c =? p - 32))
  || ((p =? 105) && ((c =? 0x130) || (c =? 0x131)))
  || ((p =? 107) && (c =? 0x212a))
  || ((p =? 115) && (c =? 0x17f)).

Definition opt_word (c : option char) : bool :=
  match c with
  | Some c => is_word c
  | None => false
  end.

(** [\b] between the character before a position and the one at it; the
    ends of the text count as non-word characters. *)
Definition word_boundary (prev next : option char) : bool :=
  xorb (opt_word prev) (opt_word next).

(** One escaped keyword, read as a literal at the start of [s]; gives the
    last character passed and the rest of the text. *)
Fixpoint literal (prev : option char) (kw s : text)
  : option (option char * text) :=
  match kw with
  | [] => Some (prev, s)
  | p :: kw' =>
      match s with
      | c :: s' => if ci_char p c then literal (Some c) kw' s' else None
      | [] => None
      end
  end.

(** [(k1|k2|...)\b]: the alternatives are tried in the order of the list,
    and one is kept only if the boundary after it holds.  [i] is the index
    of the first keyword of [kws]. *)
Fixpoint alternatives (prev : option char) (kws : list text) (i : nat)
  (s : text) : option nat :=
  match kws with
  | [] => None
  | kw :: kws' =>
      match literal prev kw s with
      | Some (last, rest) =>
          if word_boundary last (hd_error rest) then Some i
          else alternatives prev kws' (S i) s
      | None => alternatives prev kws' (S i) s
      end
  end.

(** The whole pattern at one position. *)
Definition match_at (kws : list text) (prev : option char) (s : text)
  : option nat :=
  if word_boundary prev (hd_error s) then alternatives prev kws 0 s
  else None.

(** [pattern.search]: the positions are tried from left to right.  The
    result is the start of the match and the index of the keyword. *)
Fixpoint search_from (kws : list text) (pos : nat) (prev : option char)
  (s : text) : option (nat * nat) :=
  match match_at kws prev s with
  | Some i => Some (pos, i)
  | None =>
      match s with
      | [] => None
      | c :: t => search_from kws (S pos) (Some c) t
      end
  end.

Definition keyword_regex_search (t : text) : option (nat * nat) :=
  search_from KEYWORDS 0 None t.

(** [match.group(1)]: the matched stretch of the text. *)
Definition group1 (t : text) (m : nat * nat) : text :=
  firstn (length (nth (snd m) KEYWORDS [])) (skipn (fst m) t).

(** ** Seen-set (lines 89-91, 159, 181) *)

(** [pid in seen] *)
Definition seen_mem (pid : text) (s : list (text * Q)) : bool :=
  existsb (fun kv => text_eqb (fst kv) pid) s.

(** [seen[pid] = now]: a present key keeps its place and takes the new
    value; an absent key is added at the end. *)
Fixpoint seen_setitem (pid : text) (now : Q) (s : list (text * Q))
  : list (text * Q) :=
  match s with
  | [] => [(pid, now)]
  | (k, v) :: s' =>
      if text_eqb k pid then (k, now) :: s'
      else (k, v) :: seen_setitem pid now s'
  end.

(** [while len(seen) > MAX_SEEN: seen.popitem(last=False)] *)
Fixpoint prune (s : list (text * Q)) : list (text * Q) :=
  match s with
  | [] => []
  | _ :: s' => if (MAX_SEEN <? length s)%nat then prune s' else s
  end.

Definition prune_seen (st : state) : state := set_seen (prune (seen st)) st.

(** ** Main loop (lines 140-193) *)

Definition STARTUP_MSG : text :=
  Eval cbv in 0x1F680 :: str " Reddit crypto monitoring bot started".
Definition HEARTBEAT_MSG : text :=
  Eval cbv in 0x1F7E2 :: str " Bot heartbeat: still running".

Definition SUBREDDITS : list text :=
  Eval cbv in
  map str
    [ "CryptoCurrency"; "Bitcoin"; "ethereum"; "binance"; "CryptoMarkets";
      "CoinBase"; "Kraken"; "CoinbaseSupport"; "kucoin"; "Gemini";
      "Metamask"; "ledgerwallet"; "Trezor"; "trustwallet"; "cardano";
      "solana"; "dogecoin"; "Ripple"; "polkadot"; "UniSwap" ]%string.

Definition NL : char := 10.

(** Lines 172-178. *)
Definition format_msg (keyword sub title snippet lnk : text)
  : option text :=
  keyword <- safe keyword ;;
  sub <- safe sub ;;
  Some ((0x1F514 :: str " <b>Keyword:</b> ") ++ keyword ++ [NL]
        ++ str "<b>Subreddit:</b> r/" ++ sub ++ [NL]
        ++ str "<b>Title:</b> " ++ title ++ [NL]
        ++ str "<b>Snippet:</b> " ++ snippet ++ [NL]
        ++ str "<b>Link:</b> " ++ lnk).

(** The body of the loop over the entries of one feed (lines 158-182).
    [None] is an exception leaving the body; the statements that can
    raise all come before the first one that changes the state. *)
Definition process_entry (now : Q) (sub : text) (e : entry) (st : state)
  : option state :=
  pid <- post_id e ;;
  if seen_mem pid (seen st) then Some st
  else
    title <- safe (title e) ;;
    summary <- safe (summary e) ;;
    let t := title ++ [SPACE] ++ summary in
    match keyword_regex_search t with
    | None => Some st
    | Some m =>
        let snippet :=
          firstn 300 summary
          ++ (if (300 <? length summary)%nat then str "..." else []) in
        msg <- format_msg (group1 t m) sub title snippet (link e) ;;
        let st := enqueue msg st in
        let st := set_seen (seen_setitem pid now (seen st)) st in
        Some (prune_seen st)
    end.

(** [for e in feed.entries[:15]] inside the [try]: an exception abandons
    the rest of the feed and keeps what was done so far. *)
Fixpoint process_entries (now : Q) (sub : text) (es : list entry)
  (st : state) : state :=
  match es with
  | [] => st
  | e :: es' =>
      match process_entry now sub e st with
      | Some st' => process_entries now sub es' st'
      | None => st
      end
  end.

(** Lines 154-185; [feed] is [None] when [feedparser.parse] raises. *)
Definition poll (now : Q) (sub : text) (feed : option (list entry))
  (st : state) : state :=
  match feed with
  | Some entries => process_entries now sub (firstn 15 entries) st
  | None => st
  end.

(** Lines 149-151. *)
Definition heartbeat (now : Q) (st : state) : state :=
  if Qltb HEARTBEAT_INTERVAL (now - last_heartbeat st)%Q
  then set_last_heartbeat now (enqueue HEARTBEAT_MSG st)
  else st.

(** What the visit of one source reads from outside. *)
Record source_env := mkSourceEnv {
  feed_of : option (list entry);
  send_of : send_env
}.

(** Lines 153-188 for one source. *)
Definition visit (now : Q) (st : state) (x : text * source_env) : state :=
  send_worker (send_of (snd x)) (poll now (fst x) (feed_of (snd x)) st).

(** One iteration of [while True] (lines 147-191). *)
Definition cycle (now : Q) (sources : list source_env)
  (answers : list send_env) (st : state) : state :=
  drain answers
    (fold_left (visit now) (combine SUBREDDITS sources) (heartbeat now st)).

(** Lines 140-141: the state in which the main loop is entered. *)
Definition startup : state := enqueue STARTUP_MSG initial.

(** ** Vocabulary of the statements *)

(** A send fails when the transport answers with the rate-limit status or
    the post raises; the two branches that put the message back. *)
Definition failed (r : response) : bool :=
  match r with
  | Status code => code =? 429
  | Raised => true
  end.

(** The message a call of [send_worker] hands over for good: the head of
    the queue, when the send does not fail. *)
Definition accepted (env : send_env) (st : state) : list text :=
  match queue st with
  | msg :: _ => if failed (resp env) then [] else [msg]
  | [] => []
  end.

(** What happens to the queue over time: a producer appends a message, or
    the dispatcher is called once. *)
Inductive op :=
| Produce (msg : text)
| Consume (env : send_env).

Definition produced (ops : list op) : list text :=
  flat_map (fun o => match o with Produce m => [m] | Consume _ => [] end)
           ops.

(** The state after a sequence of operations, and the messages accepted by
    the transport on the way, in order. *)
Fixpoint run (ops : list op) (st : state) : state * list text :=
  match ops with
  | [] => (st, [])
  | Produce m :: ops' => run ops' (enqueue m st)
  | Consume env :: ops' =>
      let (st', out) := run ops' (send_worker env st) in
      (st', accepted env st ++ out)
  end.

(** The timestamp stored under [pid], if [pid] is a key. *)
Definition seen_get (pid : text) (s : list (text * Q)) : option Q :=
  option_map snd (find (fun kv => text_eqb (fst kv) pid) s).

(** The last [n] elements of a list. *)
Definition lastn {A : Type} (n : nat) (l : list A) : list A :=
  skipn (length l - n) l.

(** The text the pattern is searched in (lines 162-164). *)
Definition entry_text (e : entry) : option text :=
  title <- safe (title e) ;;
  summary <- safe (summary e) ;;
  Some (title ++ [SPACE] ++ summary).

(** The entry has no keyword match: its text cannot be built, or the
    search in it finds nothing. *)
Definition unmatched (e : entry) : Prop :=
  forall t, entry_text e = Some t -> keyword_regex_search t = None.

(** One item handed to the loop body: the clock reading of the cycle, the
    source and the entry. *)
Definition item : Type := Q * text * entry.

Definition step (it : item) (st : state) : state :=
  let '(now, sub, e) := it in
  match process_entry now sub e st with
  | Some st' => st'
  | None => st
  end.

Fixpoint steps (its : list item) (st : state) : state :=
  match its with
  | [] => st
  | it :: its' => steps its' (step it st)
  end.

(** Lines 181-182 on the seen-set: [seen[pid] = now; prune_seen()]. *)
Definition record (pid : text) (now : Q) (s : list (text * Q))
  : list (text * Q) :=
  prune (seen_setitem pid now s).

(** A sequence of record-and-prune operations. *)
Fixpoint records (rs : list (text * Q)) (s : list (text * Q))
  : list (text * Q) :=
  match rs with
  | [] => s
  | (pid, now) :: rs' => records rs' (record pid now s)
  end.

(** The fingerprints a sequence of operations inserts, oldest first.  The
    assignment of line 181 inserts its key when the key is not in the dict
    at that moment; when it is, the assignment only replaces the
    timestamp. *)
Fixpoint insertions (rs : list (text * Q)) (s : list (text * Q))
  : list text :=
  match rs with
  | [] => []
  | (pid, now) :: rs' =>
      (if seen_mem pid s then [] else [pid])
      ++ insertions rs' (record pid now s)
  end.

(** What line 181 records for an item, if the loop body gets there: the
    fingerprint is not a key (line 159), title and summary are sanitized
    (lines 162-163), the pattern matches (line 167) and the message is
    built (lines 173-174 are where that can raise). *)
Definition inserted (it : item) (st : state) : list (text * Q) :=
  let '(now, sub, e) := it in
  match post_id e with
  | None => []
  | Some pid =>
      if seen_mem pid (seen st) then []
      else
        match entry_text e with
        | None => []
        | Some t =>
            match keyword_regex_search t with
            | None => []
            | Some m =>
                match safe (group1 t m), safe sub with
                | Some _, Some _ => [(pid, now)]
                | _, _ => []
                end
            end
        end
  end.

(** What line 181 records along a sequence of items, oldest first. *)
Fixpoint recorded (its : list item) (st : state) : list (text * Q) :=
  match its with
  | [] => []
  | it :: its' => inserted it st ++ recorded its' (step it st)
  end.

(** The last character of a text, if any. *)
Definition last_char (s : text) : option char := hd_error (rev s).

(** The text [mid] is the keyword [kw] up to case. *)
Definition ci_equal (kw mid : text) : Prop :=
  Forall2 (fun p c => ci_char p c = true) kw mid.

(** Following the words of the specification: keyword number [i] of [kws]
    occurs in [t] at position [pos] as a whole word, up to case, with a
    word boundary on both sides. *)
Definition occurs (kws : list text) (t : text) (pos i : nat) : Prop :=
  exists kw pre mid post,
    nth_error kws i = Some kw
    /\ t = pre ++ mid ++ post
    /\ length pre = pos
    /\ ci_equal kw mid
    /\ word_boundary (last_char pre) (hd_error (mid ++ post)) = true
    /\ word_boundary (last_char (pre ++ mid)) (hd_error post) = true.

(** The last character passed once [mid] has been read after [prev]. *)
Definition last_or (prev : option char) (mid : text) : option char :=
  match last_char mid with
  | Some c => Some c
  | None => prev
  end.

(** One alternative followed by the closing boundary. *)
Definition kw_here (prev : option char) (kw s : text) : bool :=
  match literal prev kw s with
  | Some (l, rest) => word_boundary l (hd_error rest)
  | None => false
  end.

(** Keyword number [i] matches right after [pre], at the start of [s],
    with both boundaries. *)
Definition occurs_here (kws : list text) (pre s : text) (i : nat) : Prop :=
  word_boundary (last_char pre) (hd_error s) = true
  /\ exists kw, nth_error kws i = Some kw
                /\ kw_here (last_char pre) kw s = true.

Definition is_lower (c : char) : bool := in_range 97 122 c.

(** A keyword begins and ends with a lower-case letter. *)
Definition letter_ends (kw : text) : bool :=
  match kw, last_char kw with
  | a :: _, Some b => is_lower a && is_lower b
  | _, _ => false
  end.

(** The pattern [m] matches at no position of [s]. *)
Fixpoint quiet {R : Type} (m : text -> option R) (s : text) : Prop :=
  match s with
  | [] => True
  | _ :: t => m s = None /\ quiet m t
  end.

(** What [escape] makes of one character. *)
Definition escape_char (c : char) : text :=
  if c =? AMP then AMP_ENT
  else if c =? LT then LT_ENT
  else if c =? GT then GT_ENT
  else if c =? QUOT then QUOT_ENT
  else if c =? APOS then APOS_ENT
  else [c].

Definition not_gt (x : char) : bool := negb (x =? GT).

(** Whitespace in normal form: the only whitespace character is the space
    and it is never followed by whitespace. *)
Fixpoint tidy (s : text) : Prop :=
  match s with
  | [] => True
  | c :: t =>
      (is_space c = true ->
       c = SPACE /\ match t with [] => True | d :: _ => is_space d = false end)
      /\ tidy t
  end.

(** What [safe] escapes: the unescaped text [u] after the tags are deleted
    and the whitespace is collapsed and stripped. *)
Definition cleaned (u : text) : text :=
  strip (re_sub spaces 0 (re_sub tag 0 u)).

(** ** [rss_url] (lines 73-74) *)

Definition rss_url (sub : text) : text :=
  str "https://www.reddit.com/r/" ++ sub ++ str "/new/.rss".

(** ** Vocabulary of the further statements *)

(** A clock reading as [last_send] holds it: the 0 of line 67, or what
    [time.time()] returned, a double, from 1 upwards at any time after
    the first second of 1970. *)
Definition reading (t : Q) : Prop :=
  (t == 0 \/ (1 <= t /\ round_double t == t))%Q.

(** The answers of a list that are not failures. *)
Definition ok_answers (envs : list send_env) : nat :=
  length (filter (fun env => negb (failed (resp env))) envs).

(** The delay is zero or between its start value and its ceiling. *)
Definition backoff_ok (b : Z) : Prop :=
  b = 0 \/ BACKOFF_START <= b <= BACKOFF_MAX.

(** The seen-set is a dictionary within its capacity: no key twice, at
    most [MAX_SEEN] entries. *)
Definition seen_ok (s : list (text * Q)) : Prop :=
  NoDup (map fst s) /\ (length s <= MAX_SEEN)%nat.

Definition invariant (st : state) : Prop :=
  backoff_ok (backoff st) /\ seen_ok (seen st).

(** What one iteration of the main loop reads from outside: the clock at
    line 147, what each source visit reads, the answers to the final
    drain. *)
Definition cycle_env : Type := Q * list source_env * list send_env.

(** Successive iterations of [while True]. *)
Fixpoint cycles (cs : list cycle_env) (st : state) : state :=
  match cs with
  | [] => st
  | (now, sources, answers) :: cs' =>
      cycles cs' (cycle now sources answers st)
  end.

(** A code point UTF-8 can encode: in range and not a surrogate. *)
Definition is_scalar (c : char) : bool :=
  (0 <=? c) && (c <=? 0x10FFFF) && negb (in_range 0xD800 0xDFFF c).

(** [[0-9a-f]] *)
(** The value of a lower-case hexadecimal digit. *)
Definition hex_value (c : char) : Z := if c <? 58 then c - 48 else c - 87.

Definition is_hex_lower (c : char) : bool :=
  in_range 48 57 c || in_range 97 102 c.

(** The characters [escape] replaces: [<], [>], the two quotes, and [&]. *)
Definition markup_char (c : char) : bool :=
  (c =? LT) || (c =? GT) || (c =? QUOT) || (c =? APOS).
Definition special_char (c : char) : bool := (c =? AMP) || markup_char c.

(** No whitespace at either end. *)
Definition ends_ok (s : text) : Prop :=
  match s with [] => True | c :: _ => is_space c = false end
  /\ match rev s with [] => True | c :: _ => is_space c = false end.

Definition ascii_upper (c : char) : char :=
  if in_range 97 122 c then c - 32 else c.
Definition ascii_lower (c : char) : char :=
  if in_range 65 90 c then c + 32 else c.

(** The characters the keywords are made of. *)
Definition keyword_char (p : char) : bool := is_lower p || (p =? SPACE).

(** A change of characters [f] that the word test and the keyword
    characters do not see. *)
Definition unseen (f : char -> char) : Prop :=
  (forall c, is_word (f c) = is_word c)
  /\ (forall p c, keyword_char p = true -> ci_char p (f c) = ci_char p c).

(** ** Further sample inputs *)

Definition two_seen : list (text * Q) := [(str "a", 5 # 1); (str "b", 6 # 1)].

(** An entry whose id is a lone surrogate. *)
Definition surrogate_entry : entry := mkEntry [0xD800] (str "http://z") [] [].

(** The double [1e-20]. *)
Definition tiny_reading : Q :=
  6646139978924579 # 664613997892457936451903530140172288.
Definition sent_never : state :=
  mkState [] [str "first"; str "second"] 0 0 0.
Definition sha256_of_abc : text :=
  str "ba7816bf8f01cfea414140de5dae2223b00361a396177a9cb410ff61f20015ad".
Definition sha256_of_empty : text :=
  str "e3b0c44298fc1c149afbf4c8996fb92427ae41e4649b934ca495991b7852b855".
Definition sent_before : state :=
  mkState [] [str "first"; str "second"] 0 (1700000000 # 1) 0.
Definition half_second_later : send_env :=
  mkSendEnv (3400000001 # 2) (Status 200) (1700000002 # 1).

(** ** Sample inputs *)

Definition rate_limited : send_env :=
  mkSendEnv (100 # 1) (Status 429) (101 # 1).
Definition timed_out : send_env := mkSendEnv (100 # 1) Raised (101 # 1).
Definition delivered : send_env :=
  mkSendEnv (100 # 1) (Status 200) (101 # 1).
Definition rejected : send_env := mkSendEnv (100 # 1) (Status 400) (101 # 1).

Definition two_queued : state :=
  enqueue (str "second") (enqueue (str "first") initial).

Definition wallet_entry : entry :=
  mkEntry (str "t1") (str "http://x") (str "Wallet locked after KYC") [].

Definition chat_entry : entry :=
  mkEntry (str "t2") (str "http://y") (str "Good morning")
          (str "<p>nice &amp; sunny</p>").

(** The seen-set after [wallet_entry] was recorded at time 5. *)
Definition wallet_seen : state :=
  set_seen [(Sha256.hexdigest (str "t1http://x"), 5 # 1)] initial.

(** An entity table with the listed entries only, and a Unicode database
    without alphanumerics above ASCII. *)
Definition only_listed : text -> option text := fun _ => None.
Definition ascii_words : char -> bool := fun _ => false.

(** ** Dispatcher *)

Lemma escalate_pos b : 0 <= b -> 0 < escalate b <= BACKOFF_MAX.
Proof.
  unfold escalate, BACKOFF_START, BACKOFF_MAX.
  destruct (Z.eqb_spec b 0); lia.
Qed.

Lemma send_worker_failed env st :
  failed (resp env) = true ->
  queue st <> [] ->
  send_worker env st = set_backoff (escalate (backoff st)) st.
Proof.
  intros Hf Hq. unfold send_worker.
  destruct st as [sn q lh ls b]; simpl in *.
  destruct q as [|m q]; [congruence|].
  destruct (resp env) as [code|]; simpl in Hf; [rewrite Hf|]; reflexivity.
Qed.

Lemma send_worker_ok env st msg rest :
  failed (resp env) = false ->
  queue st = msg :: rest ->
  send_worker env st =
    set_last_send (t_done env) (set_backoff 0 (set_queue rest st)).
Proof.
  intros Hf Hq. unfold send_worker. rewrite Hq.
  destruct (resp env) as [code|]; simpl in Hf; [rewrite Hf|discriminate].
  reflexivity.
Qed.

Lemma send_worker_queue env st :
  accepted env st ++ queue (send_worker env st) = queue st.
Proof.
  unfold accepted.
  destruct (queue st) as [|m q] eqn:Hq.
  - unfold send_worker. rewrite Hq. simpl. exact Hq.
  - destruct (failed (resp env)) eqn:Hf.
    + rewrite send_worker_failed by congruence. simpl. exact Hq.
    + rewrite (send_worker_ok env st m q Hf Hq). reflexivity.
Qed.

(** Nothing is lost and nothing overtakes: what the transport accepted,
    followed by what is still queued, is what was queued followed by what
    was produced. *)
Lemma run_conserves ops : forall st,
  snd (run ops st) ++ queue (fst (run ops st)) = queue st ++ produced ops.
Proof.
  induction ops as [|[m|env] ops IH]; intros st; simpl.
  - now rewrite app_nil_r.
  - rewrite IH. simpl. now rewrite <- app_assoc.
  - specialize (IH (send_worker env st)).
    destruct (run ops (send_worker env st)) as [st' out]; simpl in *.
    rewrite <- app_assoc, IH, app_assoc, send_worker_queue. reflexivity.
Qed.

(** C1: when the send of the head message m1 fails (rate-limit status or
    exception), the queue is again m1, m2, ... ; whatever is produced and
    sent afterwards, the messages the transport accepts, followed by the
    ones still queued, are m1, m2, the rest and the new messages in that
    order, so the first accepted message is m1 and the second is m2. *)
Theorem failed_send_keeps_order env st m1 m2 rest ops :
  queue st = m1 :: m2 :: rest ->
  failed (resp env) = true ->
  let st1 := send_worker env st in
  let out := snd (run ops st1) in
  queue st1 = m1 :: m2 :: rest
  /\ out ++ queue (fst (run ops st1)) = m1 :: m2 :: rest ++ produced ops
  /\ (out <> [] -> nth_error out 0 = Some m1)
  /\ ((2 <= length out)%nat -> nth_error out 1 = Some m2).
Proof.
  intros Hq Hf st1 out.
  assert (Hq1 : queue st1 = m1 :: m2 :: rest).
  { unfold st1. rewrite send_worker_failed by congruence. exact Hq. }
  assert (Hc : out ++ queue (fst (run ops st1))
               = m1 :: m2 :: rest ++ produced ops).
  { unfold out. rewrite run_conserves, Hq1. reflexivity. }
  repeat split; trivial.
  - intros Hne. destruct out as [|a out']; [congruence|].
    simpl in Hc. injection Hc as -> _. reflexivity.
  - intros Hlen. destruct out as [|a [|b out']]; simpl in Hlen; try lia.
    simpl in Hc. injection Hc as _ -> _. reflexivity.
Qed.

Lemma drain_failed envs : forall st,
  queue st <> [] ->
  Forall (fun env => failed (resp env) = true) envs ->
  drain envs st
  = set_backoff (fold_left (fun b _ => escalate b) envs (backoff st)) st.
Proof.
  induction envs as [|env envs IH]; intros st Hq Hall; simpl.
  - now destruct st.
  - inversion Hall as [|? ? Hf Hall']; subst.
    destruct (queue st) as [|m q] eqn:E; [congruence|].
    rewrite send_worker_failed by congruence.
    assert (Hq1 : queue (set_backoff (escalate (backoff st)) st) <> []).
    { destruct st; simpl in *; congruence. }
    rewrite (IH _ Hq1 Hall'). destruct st; reflexivity.
Qed.

Lemma escalate_iter (n : nat) (envs : list send_env) :
  length envs = S n ->
  fold_left (fun b _ => escalate b) envs 0
  = Z.min (BACKOFF_START * 2 ^ Z.of_nat n) BACKOFF_MAX.
Proof.
  revert envs. induction n as [|n IH]; intros envs Hlen.
  - destruct envs as [|e [|e' envs]]; simpl in Hlen; try lia.
    reflexivity.
  - destruct (exists_last (l:=envs)) as (envs' & e & ->).
    { intros ->. simpl in Hlen. lia. }
    rewrite length_app in Hlen. simpl in Hlen.
    rewrite fold_left_app. cbn [fold_left]. rewrite IH by lia.
    rewrite Nat2Z.inj_succ, Z.pow_succ_r by lia.
    assert (0 < 2 ^ Z.of_nat n) by (apply Z.pow_pos_nonneg; lia).
    unfold escalate, BACKOFF_START, BACKOFF_MAX in *.
    destruct (Z.eqb_spec (Z.min (5 * 2 ^ Z.of_nat n) 120) 0); lia.
Qed.

(** C3: starting from delay 0 with a message queued, n >= 1 consecutive
    failures leave the delay at min(5 * 2^(n-1), 120); and a send that
    does not fail resets the delay to 0, whatever it was. *)
Theorem backoff_escalates_and_resets (n : nat) envs ok st st' :
  queue st <> [] ->
  backoff st = 0 ->
  length envs = n ->
  (1 <= n)%nat ->
  Forall (fun env => failed (resp env) = true) envs ->
  queue st' <> [] ->
  failed (resp ok) = false ->
  backoff (drain envs st) = Z.min (5 * 2 ^ (Z.of_nat n - 1)) 120
  /\ backoff (send_worker ok (drain envs st)) = 0
  /\ backoff (send_worker ok st') = 0.
Proof.
  intros Hq Hb Hlen Hn Hall Hq' Hok.
  destruct n as [|n]; [lia|].
  assert (Hd : drain envs st
               = set_backoff (Z.min (5 * 2 ^ (Z.of_nat (S n) - 1)) 120) st).
  { rewrite drain_failed, Hb, (escalate_iter n) by trivial.
    replace (Z.of_nat (S n) - 1) with (Z.of_nat n) by lia. reflexivity. }
  assert (Hreset : forall s, queue s <> [] -> backoff (send_worker ok s) = 0).
  { intros s Hs. destruct (queue s) as [|m q] eqn:E; [congruence|].
    rewrite (send_worker_ok ok s m q Hok E). reflexivity. }
  split; [|split].
  - rewrite Hd. reflexivity.
  - apply Hreset. rewrite Hd. exact Hq.
  - apply Hreset, Hq'.
Qed.

(** C4: on a non-empty queue, any response whose status is not the
    rate-limit status consumes the head message, resets the delay to zero
    and sets the last-send time to the clock reading taken after the post;
    the rate-limit status puts the message back at the head and leaves the
    last-send time as it was. *)
Theorem response_consumes_or_requeues env st msg rest code :
  queue st = msg :: rest ->
  resp env = Status code ->
  let st' := send_worker env st in
  (code <> 429 ->
     queue st' = rest /\ backoff st' = 0 /\ last_send st' = t_done env)
  /\ (code = 429 ->
     queue st' = msg :: rest /\ last_send st' = last_send st
     /\ backoff st' = escalate (backoff st)).
Proof.
  intros Hq Hr st'. split; intros Hc.
  - assert (Hf : failed (resp env) = false).
    { rewrite Hr. simpl. now apply Z.eqb_neq. }
    unfold st'. rewrite (send_worker_ok env st msg rest Hf Hq).
    repeat split.
  - assert (Hf : failed (resp env) = true).
    { rewrite Hr. simpl. now apply Z.eqb_eq. }
    unfold st'. rewrite send_worker_failed by congruence.
    repeat split. exact Hq.
Qed.

(** ** Heartbeat *)

Lemma Qltb_true a b : (a < b)%Q -> Qltb a b = true.
Proof.
  intros H. unfold Qltb.
  destruct (Qle_bool b a) eqn:E; trivial.
  apply Qle_bool_iff in E. exfalso. exact (Qlt_not_le _ _ H E).
Qed.

(** C10: the main loop is entered with the heartbeat timer at 0 and the
    startup notice queued; for a clock reading above the heartbeat
    interval, as every Unix time since 1970-01-01 00:30 is, the first
    heartbeat check passes: the heartbeat message is queued right after
    the startup notice and the timer takes the reading. *)
Theorem first_cycle_heartbeat (now : Q) :
  (HEARTBEAT_INTERVAL < now)%Q ->
  last_heartbeat startup = 0%Q
  /\ queue startup = [STARTUP_MSG]
  /\ queue (heartbeat now startup) = [STARTUP_MSG; HEARTBEAT_MSG]
  /\ last_heartbeat (heartbeat now startup) = now.
Proof.
  intros H. unfold heartbeat.
  rewrite Qltb_true.
  - repeat split.
  - simpl. unfold Qminus. setoid_replace (now + - 0)%Q with now by ring.
    exact H.
Qed.

(** ** Seen-set *)

Lemma text_eqb_eq a b : text_eqb a b = true <-> a = b.
Proof.
  unfold text_eqb. destruct (list_eq_dec Z.eq_dec a b); split;
    congruence.
Qed.

Lemma text_eqb_refl a : text_eqb a a = true.
Proof. now apply text_eqb_eq. Qed.

Lemma seen_setitem_absent pid now s :
  seen_mem pid s = false -> seen_setitem pid now s = s ++ [(pid, now)].
Proof.
  induction s as [|[k v] s IH]; simpl; intros H; trivial.
  apply orb_false_iff in H as [Hk Hs]. simpl in Hk.
  rewrite Hk, IH; trivial.
Qed.

Lemma prune_skipn s : prune s = skipn (length s - MAX_SEEN) s.
Proof.
  induction s as [|x s IH]; trivial.
  cbn [prune]. destruct (Nat.ltb_spec MAX_SEEN (length (x :: s))) as [H|H].
  - rewrite IH. cbn [length] in *.
    replace (S (length s) - MAX_SEEN)%nat
      with (S (length s - MAX_SEEN)) by lia.
    reflexivity.
  - replace (length (x :: s) - MAX_SEEN)%nat with 0%nat by lia.
    reflexivity.
Qed.

Lemma MAX_SEEN_pos : (1 <= MAX_SEEN)%nat.
Proof. apply Nat.leb_le. vm_compute. reflexivity. Qed.

Lemma seen_mem_app pid s1 s2 :
  seen_mem pid (s1 ++ s2) = seen_mem pid s1 || seen_mem pid s2.
Proof. apply existsb_app. Qed.

Lemma seen_mem_keys pid s :
  seen_mem pid s = true <-> In pid (map fst s).
Proof.
  unfold seen_mem. rewrite existsb_exists, in_map_iff.
  split; intros (kv & H1 & H2).
  - apply text_eqb_eq in H2. eauto.
  - exists kv. split; trivial. now apply text_eqb_eq.
Qed.

Lemma lastn_length {A} n (l : list A) : (length (lastn n l) <= n)%nat.
Proof. unfold lastn. rewrite length_skipn. lia. Qed.

Lemma lastn_snoc {A} n (h : list A) x :
  (1 <= n)%nat -> lastn n (lastn n h ++ [x]) = lastn n (h ++ [x]).
Proof.
  intros Hn. unfold lastn.
  rewrite !length_app, length_skipn. cbn [length].
  rewrite !skipn_app, length_skipn, skipn_skipn.
  f_equal; f_equal; lia.
Qed.

Lemma lastn_last {A} n (h : list A) x :
  (1 <= n)%nat -> In x (lastn n (h ++ [x])).
Proof.
  intros Hn. unfold lastn. rewrite length_app, skipn_app. cbn [length].
  apply in_or_app. right.
  replace (length h + 1 - n - length h)%nat with 0%nat by lia. now left.
Qed.

Lemma prune_keys s : map fst (prune s) = lastn MAX_SEEN (map fst s).
Proof.
  rewrite prune_skipn. unfold lastn. rewrite length_map.
  symmetry. apply skipn_map.
Qed.

(** The two ways the loop body can end without an exception: nothing is
    changed, or the entry matched, its fingerprint was absent, a message
    is appended and the fingerprint is recorded and the set pruned. *)
Lemma process_entry_cases now sub e st st' :
  process_entry now sub e st = Some st' ->
  st' = st
  \/ exists pid t m msg,
       post_id e = Some pid
       /\ seen_mem pid (seen st) = false
       /\ entry_text e = Some t
       /\ keyword_regex_search t = Some m
       /\ st' = set_seen (prune (seen st ++ [(pid, now)])) (enqueue msg st).
Proof.
  unfold process_entry, entry_text.
  destruct (post_id e) as [pid|] eqn:Hp; [|discriminate].
  destruct (seen_mem pid (seen st)) eqn:Hm.
  - intros [= <-]. now left.
  - destruct (safe (title e)) as [ti|]; [|discriminate].
    destruct (safe (summary e)) as [su|]; [|discriminate].
    destruct (keyword_regex_search (ti ++ [SPACE] ++ su)) as [m|] eqn:Hs.
    + destruct (format_msg _ _ _ _ _) as [msg|]; [|discriminate].
      intros [= <-]. right. exists pid, (ti ++ [SPACE] ++ su), m, msg.
      repeat split; trivial.
      unfold prune_seen. cbn [seen set_seen].
      rewrite seen_setitem_absent by (destruct st; exact Hm).
      destruct st; reflexivity.
    + intros [= <-]. now left.
Qed.

Lemma prune_lastn s : prune s = lastn MAX_SEEN s.
Proof. apply prune_skipn. Qed.

Lemma lastn_idem {A} n (l : list A) : lastn n (lastn n l) = lastn n l.
Proof.
  unfold lastn at 1. pose proof (lastn_length n l).
  replace (length (lastn n l) - n)%nat with 0%nat by lia. reflexivity.
Qed.

Lemma lastn_map {A B} (f : A -> B) n (l : list A) :
  map f (lastn n l) = lastn n (map f l).
Proof. unfold lastn. now rewrite length_map, skipn_map. Qed.

Lemma seen_setitem_present pid now s :
  seen_mem pid s = true -> map fst (seen_setitem pid now s) = map fst s.
Proof.
  induction s as [|[k v] s IH]; simpl; [discriminate|].
  destruct (text_eqb k pid); simpl; intros H; [reflexivity|].
  now rewrite IH.
Qed.

Lemma records_keys rs : forall s h,
  map fst s = lastn MAX_SEEN h ->
  map fst (records rs s) = lastn MAX_SEEN (h ++ insertions rs s).
Proof.
  induction rs as [|[pid now] rs IH]; intros s h Hinv; simpl.
  - now rewrite app_nil_r.
  - destruct (seen_mem pid s) eqn:Hm; cbn [app].
    + apply IH. unfold record.
      rewrite prune_keys, seen_setitem_present, Hinv by trivial.
      apply lastn_idem.
    + replace (h ++ pid :: insertions rs (record pid now s))
        with ((h ++ [pid]) ++ insertions rs (record pid now s))
        by now rewrite <- app_assoc.
      apply IH. unfold record.
      rewrite prune_keys, seen_setitem_absent, map_app, Hinv by trivial.
      apply lastn_snoc, MAX_SEEN_pos.
Qed.

Lemma step_cases it st :
  (inserted it st = [] /\ seen (step it st) = seen st)
  \/ exists pid,
       inserted it st = [(pid, fst (fst it))]
       /\ seen_mem pid (seen st) = false
       /\ seen (step it st) = record pid (fst (fst it)) (seen st).
Proof.
  destruct it as [[now sub] e].
  unfold inserted, step, process_entry, entry_text, format_msg.
  cbn [fst snd].
  destruct (post_id e) as [pid|]; [|now left].
  destruct (seen_mem pid (seen st)) eqn:Hm; [now left|].
  destruct (safe (title e)) as [ti|]; [|now left].
  destruct (safe (summary e)) as [su|]; [|now left].
  destruct (keyword_regex_search (ti ++ [SPACE] ++ su)) as [m|];
    [|now left].
  destruct (safe (group1 (ti ++ [SPACE] ++ su) m)) as [kw|]; [|now left].
  destruct (safe sub) as [sb|]; [|now left].
  right. exists pid. repeat split; trivial.
Qed.

Lemma steps_records its : forall st,
  seen (steps its st) = records (recorded its st) (seen st)
  /\ insertions (recorded its st) (seen st) = map fst (recorded its st).
Proof.
  induction its as [|it its IH]; intros st; simpl; [now split|].
  destruct (IH (step it st)) as [IH1 IH2].
  destruct (step_cases it st) as [[Hi Hs]|(pid & Hi & Hm & Hs)];
    rewrite Hi; cbn [app records insertions map fst].
  - rewrite <- Hs. now split.
  - rewrite Hm, <- Hs. cbn [app]. split; [exact IH1|now rewrite IH2].
Qed.

Lemma steps_entries its : forall st h,
  seen st = lastn MAX_SEEN h ->
  seen (steps its st) = lastn MAX_SEEN (h ++ recorded its st).
Proof.
  induction its as [|it its IH]; intros st h Hinv; simpl.
  - now rewrite app_nil_r.
  - destruct (step_cases it st) as [[Hi Hs]|(pid & Hi & Hm & Hs)];
      rewrite Hi; cbn [app].
    + apply IH. now rewrite Hs.
    + replace (h ++ (pid, fst (fst it)) :: recorded its (step it st))
        with ((h ++ [(pid, fst (fst it))]) ++ recorded its (step it st))
        by now rewrite <- app_assoc.
      apply IH. rewrite Hs. unfold record.
      rewrite prune_lastn, seen_setitem_absent, Hinv by trivial.
      apply lastn_snoc, MAX_SEEN_pos.
Qed.

(** C5: the seen-set under record-and-prune operations.  [prune_seen]
    keeps the last MAX_SEEN = 3000 entries of the dict, so it removes the
    oldest first.  After any sequence of operations from the empty
    seen-set, the set has at most 3000 entries and its keys are, in
    order, the last 3000 fingerprints inserted, where an operation
    inserts its fingerprint when that is not a key at the time.  In the
    main loop every operation is an insertion, the seen-set after any
    sequence of items is what the operations of the loop give, and it
    holds the last 3000 of the recorded entries, in the order in which
    line 181 recorded them. *)
Theorem seen_set_keeps_latest (rs : list (text * Q)) (its : list item) :
  let s := records rs [] in
  let st := steps its initial in
  MAX_SEEN = 3000%nat
  /\ (forall s0, prune s0 = lastn MAX_SEEN s0)
  /\ (length s <= MAX_SEEN)%nat
  /\ map fst s = lastn MAX_SEEN (insertions rs [])
  /\ seen st = records (recorded its initial) []
  /\ insertions (recorded its initial) [] = map fst (recorded its initial)
  /\ (length (seen st) <= MAX_SEEN)%nat
  /\ seen st = lastn MAX_SEEN (recorded its initial).
Proof.
  intros s st.
  assert (Hs : map fst s = lastn MAX_SEEN (insertions rs [])).
  { unfold s. now rewrite (records_keys rs [] []). }
  assert (Ht : seen st = lastn MAX_SEEN (recorded its initial)).
  { unfold st. now rewrite (steps_entries its initial []). }
  destruct (steps_records its initial) as [R1 R2].
  repeat split; trivial.
  - apply prune_lastn.
  - rewrite <- (length_map fst), Hs. apply lastn_length.
  - rewrite Ht. apply lastn_length.
Qed.

Lemma seen_get_mem pid s t : seen_get pid s = Some t -> seen_mem pid s = true.
Proof.
  unfold seen_get, seen_mem.
  destruct (find _ s) as [kv|] eqn:E; [|discriminate]. intros _.
  apply find_some in E. apply existsb_exists. eauto.
Qed.

(** C6: when the fingerprint of an entry is already in the seen-set with
    timestamp t0, processing the entry at any clock reading changes
    nothing: the loop body ends at once, and the fingerprint keeps the
    timestamp t0. *)
Theorem first_seen_timestamp_kept now sub e st pid t0 :
  post_id e = Some pid ->
  seen_get pid (seen st) = Some t0 ->
  process_entry now sub e st = Some st
  /\ seen_get pid (seen (step (now, sub, e) st)) = Some t0.
Proof.
  intros Hp Hg.
  assert (H : process_entry now sub e st = Some st).
  { unfold process_entry. rewrite Hp, (seen_get_mem _ _ _ Hg).
    reflexivity. }
  split; trivial. unfold step. now rewrite H.
Qed.

Lemma seen_mem_prune pid s :
  seen_mem pid (prune s) = true -> seen_mem pid s = true.
Proof.
  rewrite prune_skipn, !seen_mem_keys. rewrite <- skipn_map.
  intros H. rewrite <- (firstn_skipn (length s - MAX_SEEN) (map fst s)).
  apply in_or_app. now right.
Qed.

(** C9: entries whose sanitized title-plus-summary text has no keyword
    match leave the whole state, and so the seen-set, unchanged; and every
    fingerprint found in the seen-set after a feed was processed was there
    before or is the fingerprint of an entry of the feed whose text has a
    match. *)
Theorem unmatched_entries_not_recorded now sub es st :
  (Forall unmatched es -> process_entries now sub es st = st)
  /\ (forall pid,
        seen_mem pid (seen (process_entries now sub es st)) = true ->
        seen_mem pid (seen st) = true
        \/ exists e t m, In e es /\ post_id e = Some pid
                         /\ entry_text e = Some t
                         /\ keyword_regex_search t = Some m).
Proof.
  split.
  - intros Hall. revert st.
    induction Hall as [|e es He _ IH]; intros st; simpl; trivial.
    destruct (process_entry now sub e st) as [st'|] eqn:Hpe; trivial.
    destruct (process_entry_cases _ _ _ _ _ Hpe)
      as [->|(pid & t & m & msg & _ & _ & Ht & Hs & _)]; [apply IH|].
    rewrite (He t Ht) in Hs. discriminate.
  - revert st. induction es as [|e es IH]; intros st pid; simpl.
    + now left.
    + destruct (process_entry now sub e st) as [st'|] eqn:Hpe;
        [|now left].
      intros H. apply IH in H as [H|(e' & t & m & Hin & Hp & Ht & Hs)].
      * destruct (process_entry_cases _ _ _ _ _ Hpe)
          as [->|(pid' & t & m & msg & Hp & _ & Ht & Hs & ->)];
          [now left|].
        cbn [seen set_seen] in H. apply seen_mem_prune in H.
        rewrite seen_mem_app in H. apply orb_true_iff in H as [H|H].
        -- left. destruct st; exact H.
        -- right. exists e, t, m. repeat split; trivial; [now left|].
           simpl in H. rewrite orb_false_r in H.
           apply text_eqb_eq in H. now subst.
      * right. exists e', t, m. repeat split; trivial. now right.
Qed.

(** ** Matcher *)

Lemma last_char_app pre mid :
  last_char (pre ++ mid) = last_or (last_char pre) mid.
Proof.
  unfold last_or, last_char. rewrite rev_app_distr.
  destruct (rev mid); reflexivity.
Qed.

Lemma last_char_snoc pre c : last_char (pre ++ [c]) = Some c.
Proof. now rewrite last_char_app. Qed.

Lemma last_or_cons prev c mid :
  last_or prev (c :: mid) = last_or (Some c) mid.
Proof.
  unfold last_or, last_char. simpl.
  destruct (rev mid); reflexivity.
Qed.

Lemma literal_spec kw : forall prev s l rest,
  literal prev kw s = Some (l, rest)
  <-> exists mid, s = mid ++ rest /\ ci_equal kw mid /\ l = last_or prev mid.
Proof.
  unfold ci_equal.
  induction kw as [|p kw IH]; intros prev s l rest; simpl.
  - split.
    + intros [= <- <-]. exists []. repeat split. constructor.
    + intros (mid & -> & Hm & ->). inversion Hm; subst. reflexivity.
  - destruct s as [|c s].
    + split; [discriminate|].
      intros (mid & Hs & Hm & _). inversion Hm; subst. discriminate.
    + destruct (ci_char p c) eqn:Hc.
      * rewrite IH. split.
        -- intros (mid & -> & Hm & ->). exists (c :: mid).
           repeat split; [now constructor|now rewrite last_or_cons].
        -- intros (mid & Hs & Hm & ->). inversion Hm as [|? c' ? mid' Hc' Hm'];
             subst. injection Hs as <- ->. exists mid'.
           repeat split; trivial. now rewrite last_or_cons.
      * split; [discriminate|].
        intros (mid & Hs & Hm & _). inversion Hm as [|? c' ? mid' Hc' Hm'];
          subst. injection Hs as <- ->. congruence.
Qed.

Lemma kw_here_spec pre kw s :
  kw_here (last_char pre) kw s = true
  <-> exists mid post,
        s = mid ++ post /\ ci_equal kw mid
        /\ word_boundary (last_char (pre ++ mid)) (hd_error post) = true.
Proof.
  unfold kw_here. split.
  - destruct (literal (last_char pre) kw s) as [[l rest]|] eqn:E;
      [|discriminate].
    intros Hb. apply literal_spec in E as (mid & -> & Hm & ->).
    exists mid, rest. rewrite last_char_app. auto.
  - intros (mid & post & -> & Hm & Hb).
    assert (E : literal (last_char pre) kw (mid ++ post)
                = Some (last_or (last_char pre) mid, post)).
    { apply literal_spec. eauto. }
    rewrite E, <- last_char_app. exact Hb.
Qed.

Lemma alternatives_cons prev kw kws i s :
  alternatives prev (kw :: kws) i s
  = if kw_here prev kw s then Some i else alternatives prev kws (S i) s.
Proof.
  unfold kw_here. simpl.
  destruct (literal prev kw s) as [[l rest]|]; reflexivity.
Qed.

Lemma alternatives_some prev s kws : forall i0 i,
  alternatives prev kws i0 s = Some i ->
  exists j kw,
    i = (i0 + j)%nat /\ nth_error kws j = Some kw
    /\ kw_here prev kw s = true
    /\ forall j' kw', (j' < j)%nat -> nth_error kws j' = Some kw' ->
                      kw_here prev kw' s = false.
Proof.
  induction kws as [|kw kws IH]; intros i0 i; [discriminate|].
  rewrite alternatives_cons.
  destruct (kw_here prev kw s) eqn:E.
  - intros [= <-]. exists 0%nat, kw. repeat split; trivial; lia.
  - intros H. apply IH in H as (j & kw1 & -> & Hn & Hk & Hmin).
    exists (S j), kw1. repeat split; trivial; [lia|].
    intros [|j'] kw' Hlt Hn'; simpl in Hn'.
    + congruence.
    + apply (Hmin j'); trivial. lia.
Qed.

Lemma alternatives_none prev s kws : forall i0,
  alternatives prev kws i0 s = None ->
  forall j kw, nth_error kws j = Some kw -> kw_here prev kw s = false.
Proof.
  induction kws as [|kw kws IH]; intros i0 H j kw' Hn.
  - destruct j; discriminate.
  - rewrite alternatives_cons in H.
    destruct (kw_here prev kw s) eqn:E; [discriminate|].
    destruct j as [|j]; simpl in Hn; [congruence|]. eauto.
Qed.

Lemma match_at_some kws pre s i :
  match_at kws (last_char pre) s = Some i ->
  occurs_here kws pre s i
  /\ forall j, (j < i)%nat -> ~ occurs_here kws pre s j.
Proof.
  unfold match_at, occurs_here.
  destruct (word_boundary (last_char pre) (hd_error s)); [|discriminate].
  intros H. apply alternatives_some in H as (j & kw & -> & Hn & Hk & Hmin).
  simpl. split; [eauto|].
  intros j' Hlt (_ & kw' & Hn' & Hk').
  rewrite (Hmin j' kw' Hlt Hn') in Hk'. discriminate.
Qed.

Lemma match_at_none kws pre s :
  match_at kws (last_char pre) s = None ->
  forall j, ~ occurs_here kws pre s j.
Proof.
  unfold match_at, occurs_here. intros H j (Hb & kw & Hn & Hk).
  rewrite Hb in H.
  rewrite (alternatives_none _ _ _ _ H j kw Hn) in Hk. discriminate.
Qed.

Lemma app_same_length {A} (a b c d : list A) :
  a ++ b = c ++ d -> length a = length c -> a = c /\ b = d.
Proof.
  revert c. induction a as [|x a IH]; intros [|y c] H Hl;
    simpl in *; try discriminate; auto.
  injection H as -> H. destruct (IH c H) as [-> ->]; auto.
Qed.

Lemma occurs_iff kws pre s i :
  occurs kws (pre ++ s) (length pre) i <-> occurs_here kws pre s i.
Proof.
  unfold occurs, occurs_here. split.
  - intros (kw & pre' & mid & post & Hn & Ht & Hl & Hm & Hb1 & Hb2).
    destruct (app_same_length _ _ _ _ Ht (eq_sym Hl)) as [<- ->].
    split; trivial. exists kw. split; trivial.
    apply kw_here_spec. eauto.
  - intros (Hb & kw & Hn & Hk).
    apply kw_here_spec in Hk as (mid & post & -> & Hm & Hb2).
    exists kw, pre, mid, post. repeat split; trivial.
Qed.

Lemma occurs_bound kws t p i : occurs kws t p i -> (p <= length t)%nat.
Proof.
  intros (kw & pre & mid & post & _ & -> & <- & _).
  rewrite length_app. lia.
Qed.

Lemma search_from_cons kws pre c t :
  search_from kws (length pre) (last_char pre) (c :: t)
  = match match_at kws (last_char pre) (c :: t) with
    | Some i => Some (length pre, i)
    | None =>
        search_from kws (length (pre ++ [c])) (last_char (pre ++ [c])) t
    end.
Proof.
  rewrite last_char_snoc, length_app, Nat.add_1_r. reflexivity.
Qed.

(** A result of the search is an occurrence, and no occurrence comes
    before it: none at an earlier position, none at the same position with
    an earlier keyword. *)
Lemma search_from_some kws s : forall pre p i,
  search_from kws (length pre) (last_char pre) s = Some (p, i) ->
  occurs kws (pre ++ s) p i
  /\ forall p' i', (length pre <= p')%nat -> occurs kws (pre ++ s) p' i' ->
                   (p < p')%nat \/ (p = p' /\ (i <= i')%nat).
Proof.
  induction s as [|c t IH]; intros pre p i.
  - simpl. destruct (match_at kws (last_char pre) []) as [i0|] eqn:E;
      [|discriminate].
    intros [= <- <-]. apply match_at_some in E as [Ho Hmin].
    split; [now apply occurs_iff|].
    intros p' i' Hp Ho'. pose proof (occurs_bound _ _ _ _ Ho') as Hb.
    rewrite app_nil_r in Hb.
    assert (p' = length pre) by lia. subst p'.
    right. split; trivial.
    destruct (Nat.le_gt_cases i0 i') as [|Hlt]; trivial.
    exfalso. apply (Hmin i' Hlt). now apply occurs_iff.
  - rewrite search_from_cons.
    destruct (match_at kws (last_char pre) (c :: t)) as [i0|] eqn:E.
    + intros [= <- <-]. apply match_at_some in E as [Ho Hmin].
      split; [now apply occurs_iff|].
      intros p' i' Hp Ho'.
      destruct (Nat.eq_dec p' (length pre)) as [->|]; [|lia].
      right. split; trivial.
      destruct (Nat.le_gt_cases i0 i') as [|Hlt]; trivial.
      exfalso. apply (Hmin i' Hlt). now apply occurs_iff.
    + intros H. apply IH in H as [Ho Hmin].
      rewrite <- app_assoc in Ho, Hmin. simpl in Ho, Hmin.
      split; trivial.
      intros p' i' Hp Ho'.
      destruct (Nat.eq_dec p' (length pre)) as [->|].
      * exfalso. apply (match_at_none _ _ _ E i'). now apply occurs_iff.
      * apply Hmin; trivial. rewrite length_app. simpl. lia.
Qed.

Lemma search_from_none kws s : forall pre,
  search_from kws (length pre) (last_char pre) s = None ->
  forall p i, (length pre <= p)%nat -> ~ occurs kws (pre ++ s) p i.
Proof.
  induction s as [|c t IH]; intros pre.
  - simpl. destruct (match_at kws (last_char pre) []) as [i0|] eqn:E;
      [discriminate|].
    intros _ p i Hp Ho. pose proof (occurs_bound _ _ _ _ Ho) as Hb.
    rewrite app_nil_r in Hb. assert (p = length pre) by lia. subst p.
    apply (match_at_none _ _ _ E i). now apply occurs_iff.
  - rewrite search_from_cons.
    destruct (match_at kws (last_char pre) (c :: t)) as [i0|] eqn:E;
      [discriminate|].
    intros H p i Hp Ho.
    destruct (Nat.eq_dec p (length pre)) as [->|].
    + apply (match_at_none _ _ _ E i). now apply occurs_iff.
    + apply (IH _ H p i).
      * rewrite length_app. simpl. lia.
      * rewrite <- app_assoc. exact Ho.
Qed.

Lemma keywords_letter_ends : forallb letter_ends KEYWORDS = true.
Proof. vm_compute. reflexivity. Qed.

Lemma ci_char_word p c :
  is_lower p = true -> ci_char p c = true -> is_word c = true.
Proof.
  unfold is_lower, ci_char, is_word, folding_letters, in_range, existsb.
  intros Hp Hc.
  apply andb_true_iff in Hp as [Hp1 Hp2].
  apply Z.leb_le in Hp1, Hp2. rewrite (proj2 (Z.leb_le _ _) Hp1) in Hc.
  rewrite (proj2 (Z.leb_le _ _) Hp2) in Hc. simpl in Hc.
  repeat (apply orb_true_iff in Hc as [Hc|Hc]).
  - apply Z.eqb_eq in Hc. subst c.
    replace (p <? 128) with true by (symmetry; apply Z.ltb_lt; lia).
    replace (97 <=? p) with true by (symmetry; apply Z.leb_le; lia).
    replace (p <=? 122) with true by (symmetry; apply Z.leb_le; lia).
    now rewrite !orb_true_r.
  - apply Z.eqb_eq in Hc. subst c.
    replace (p - 32 <? 128) with true by (symmetry; apply Z.ltb_lt; lia).
    replace (65 <=? p - 32) with true by (symmetry; apply Z.leb_le; lia).
    replace (p - 32 <=? 90) with true by (symmetry; apply Z.leb_le; lia).
    now rewrite !orb_true_r.
  - apply andb_true_iff in Hc as [_ Hc].
    apply orb_true_iff in Hc as [Hc|Hc]; apply Z.eqb_eq in Hc; subst c;
      reflexivity.
  - apply andb_true_iff in Hc as [_ Hc]. apply Z.eqb_eq in Hc. subst c.
    reflexivity.
  - apply andb_true_iff in Hc as [_ Hc]. apply Z.eqb_eq in Hc. subst c.
    reflexivity.
Qed.

Lemma ci_equal_rev kw mid : ci_equal kw mid -> ci_equal (rev kw) (rev mid).
Proof.
  unfold ci_equal. induction 1; simpl; [constructor|].
  apply Forall2_app; trivial. now repeat constructor.
Qed.

Lemma ci_equal_hd kw mid a :
  ci_equal kw mid -> hd_error kw = Some a ->
  exists c, hd_error mid = Some c /\ ci_char a c = true.
Proof.
  intros [|p c kw' mid' Hpc _]; [discriminate|].
  intros [= ->]. exists c. auto.
Qed.

(** The text matched by a keyword with letter ends begins and ends with a
    word character. *)
Lemma ci_equal_ends kw mid :
  letter_ends kw = true -> ci_equal kw mid ->
  opt_word (hd_error mid) = true /\ opt_word (last_char mid) = true.
Proof.
  unfold letter_ends. intros Hk Hm.
  destruct kw as [|a kw']; [discriminate|].
  destruct (last_char (a :: kw')) as [b|] eqn:Hb; [|discriminate].
  apply andb_true_iff in Hk as [Ha Hlb].
  destruct (ci_equal_hd _ _ a Hm eq_refl) as (c & -> & Hc).
  destruct (ci_equal_hd _ _ b (ci_equal_rev _ _ Hm) Hb) as (d & Hd & Hbd).
  unfold last_char. rewrite Hd. simpl.
  split; [exact (ci_char_word a c Ha Hc)|exact (ci_char_word b d Hlb Hbd)].
Qed.

Lemma skipn_length_app {A} (a b : list A) : skipn (length a) (a ++ b) = b.
Proof. induction a; simpl; trivial. Qed.

Lemma firstn_length_app {A} (a b : list A) : firstn (length a) (a ++ b) = a.
Proof. induction a; simpl; trivial. now f_equal. Qed.

(** C7: the search returns position p and keyword i exactly when keyword i
    occurs at p as a whole word up to case and no occurrence comes before
    it (none at an earlier position, none at p with an earlier keyword of
    the list); it returns nothing exactly when no keyword occurs as a
    whole word.  The matched text is the keyword up to case and is not
    part of a larger word: the characters around it, if any, are not word
    characters.  "walletx" has no match, "my wallet is gone" and "WALLET"
    match the keyword "wallet". *)
Theorem keyword_search_earliest_whole_word (t : text) :
  (forall p i,
      keyword_regex_search t = Some (p, i)
      <-> occurs KEYWORDS t p i
          /\ forall p' i', occurs KEYWORDS t p' i' ->
               (p < p')%nat \/ (p = p' /\ (i <= i')%nat))
  /\ (keyword_regex_search t = None
      <-> forall p i, ~ occurs KEYWORDS t p i)
  /\ (forall p i,
        keyword_regex_search t = Some (p, i) ->
        exists kw pre post,
          nth_error KEYWORDS i = Some kw
          /\ t = pre ++ group1 t (p, i) ++ post
          /\ length pre = p
          /\ ci_equal kw (group1 t (p, i))
          /\ opt_word (last_char pre) = false
          /\ opt_word (hd_error post) = false)
  /\ keyword_regex_search (str "walletx") = None
  /\ keyword_regex_search (str "my wallet is gone") = Some (3, 22)%nat
  /\ keyword_regex_search (str "WALLET") = Some (0, 22)%nat
  /\ nth_error KEYWORDS 22 = Some (str "wallet").
Proof.
  assert (Hsome : forall p i, keyword_regex_search t = Some (p, i) ->
            occurs KEYWORDS t p i
            /\ forall p' i', occurs KEYWORDS t p' i' ->
                 (p < p')%nat \/ (p = p' /\ (i <= i')%nat)).
  { intros p i H. apply (search_from_some KEYWORDS t []) in H as [Ho Hmin].
    split; trivial. intros p' i'. apply Hmin. simpl. lia. }
  assert (Hnone : keyword_regex_search t = None ->
            forall p i, ~ occurs KEYWORDS t p i).
  { intros H p i. apply (search_from_none KEYWORDS t [] H). simpl. lia. }
  split; [|split; [|split]].
  - intros p i. split; [apply Hsome|].
    intros [Ho Hmin].
    destruct (keyword_regex_search t) as [[p0 i0]|] eqn:E.
    + destruct (Hsome p0 i0 eq_refl) as [Ho0 Hmin0].
      specialize (Hmin _ _ Ho0). specialize (Hmin0 _ _ Ho).
      f_equal. f_equal; lia.
    + exfalso. exact (Hnone eq_refl _ _ Ho).
  - split; [apply Hnone|].
    intros H. destruct (keyword_regex_search t) as [[p0 i0]|] eqn:E;
      trivial.
    exfalso. exact (H _ _ (proj1 (Hsome p0 i0 eq_refl))).
  - intros p i H. apply Hsome in H as [Ho _].
    destruct Ho as (kw & pre & mid & post & Hn & -> & <- & Hm & Hb1 & Hb2).
    assert (Hg : group1 (pre ++ mid ++ post) (length pre, i) = mid).
    { unfold group1. cbn [fst snd].
      rewrite (nth_error_nth _ _ _ Hn), skipn_length_app.
      unfold ci_equal in Hm. rewrite (Forall2_length Hm).
      apply firstn_length_app. }
    rewrite Hg. exists kw, pre, post. repeat split; trivial.
    + assert (Hk : letter_ends kw = true).
      { pose proof keywords_letter_ends as Hall.
        rewrite forallb_forall in Hall. apply Hall.
        eapply nth_error_In; eauto. }
      destruct (ci_equal_ends _ _ Hk Hm) as [Hh _].
      destruct mid as [|c mid]; [discriminate|].
      simpl in Hb1, Hh. unfold word_boundary in Hb1. simpl in Hb1.
      rewrite Hh in Hb1. now destruct (opt_word (last_char pre)).
    + assert (Hk : letter_ends kw = true).
      { pose proof keywords_letter_ends as Hall.
        rewrite forallb_forall in Hall. apply Hall.
        eapply nth_error_In; eauto. }
      destruct (ci_equal_ends _ _ Hk Hm) as [_ Hl].
      rewrite last_char_app in Hb2. unfold last_or in Hb2.
      destruct (last_char mid) as [c|]; [|discriminate].
      unfold word_boundary in Hb2. cbn [opt_word] in Hb2, Hl.
      rewrite Hl in Hb2. now destruct (opt_word (hd_error post)).
  - repeat split; vm_compute; reflexivity.
Qed.

(** ** Sanitizer *)

Lemma re_sub_quiet m s : quiet m s -> re_sub m 0 s = s.
Proof.
  induction s as [|c t IH]; simpl; trivial.
  intros [-> Hq]. now rewrite IH.
Qed.

Lemma re_sub_call_quiet m s : quiet m s -> re_sub_call m 0 s = Some s.
Proof.
  induction s as [|c t IH]; simpl; trivial.
  intros [-> Hq]. now rewrite IH.
Qed.

Lemma re_sub_skip m : forall s k, re_sub m k s = re_sub m 0 (skipn k s).
Proof.
  induction s as [|c t IH]; intros [|k]; trivial.
  simpl. apply IH.
Qed.

Lemma quiet_skipn {R} (m : text -> option R) :
  forall s k, quiet m s -> quiet m (skipn k s).
Proof.
  induction s as [|c t IH]; intros [|k] H; trivial.
  simpl. apply IH. apply H.
Qed.

Lemma quiet_drop_while {R} (m : text -> option R) p s :
  quiet m s -> quiet m (drop_while p s).
Proof.
  induction s as [|c t IH]; simpl; trivial.
  intros H. destruct (p c); [apply IH, H|exact H].
Qed.

Lemma take_drop_while p s : take_while p s ++ drop_while p s = s.
Proof.
  induction s as [|c t IH]; simpl; trivial.
  destruct (p c); simpl; now f_equal.
Qed.

Lemma take_while_length p s : (length (take_while p s) <= length s)%nat.
Proof.
  rewrite <- (take_drop_while p s) at 2. rewrite length_app. lia.
Qed.

Lemma drop_while_length p s :
  (length (drop_while p s) <= length s)%nat.
Proof.
  rewrite <- (take_drop_while p s) at 2. rewrite length_app. lia.
Qed.

Lemma skipn_take_while p s :
  skipn (length (take_while p s)) s = drop_while p s.
Proof.
  induction s as [|c t IH]; simpl; trivial.
  destruct (p c); simpl; trivial.
Qed.

Lemma take_while_all p s : Forall (fun c => p c = true) (take_while p s).
Proof.
  induction s as [|c t IH]; simpl; [constructor|].
  destruct (p c) eqn:E; constructor; trivial.
Qed.

Lemma drop_while_head p s :
  match drop_while p s with
  | [] => True
  | c :: _ => p c = false
  end.
Proof.
  induction s as [|c t IH]; simpl; trivial.
  destruct (p c) eqn:E; trivial.
Qed.

Lemma drop_while_fixed p s :
  match s with [] => True | c :: _ => p c = false end ->
  drop_while p s = s.
Proof. destruct s as [|c t]; simpl; trivial. now intros ->. Qed.

(** *** [unescape] undoes [escape] *)

Lemma charref_not_amp c t : c <> AMP -> charref (c :: t) = None.
Proof.
  intros H. unfold charref.
  destruct (Z.eqb_spec c AMP); [contradiction|reflexivity].
Qed.

Lemma quiet_charref s : existsb (Z.eqb AMP) s = false -> quiet charref s.
Proof.
  induction s as [|c t IH]; simpl; trivial.
  intros H. apply orb_false_iff in H as [Hc Ht].
  split; [|now apply IH].
  destruct (Z.eqb_spec c AMP) as [->|]; [discriminate|reflexivity].
Qed.

(** The shortcut of [unescape] for a text without [&] gives what the
    substitution would give. *)
Lemma unescape_scan s : unescape s = re_sub_call charref 0 s.
Proof.
  unfold unescape.
  destruct (existsb (Z.eqb AMP) s) eqn:E; simpl; trivial.
  symmetry. now apply re_sub_call_quiet, quiet_charref.
Qed.

Lemma replace_app old new a b :
  replace old new (a ++ b) = replace old new a ++ replace old new b.
Proof. apply flat_map_app. Qed.

Lemma escape_app a b : escape (a ++ b) = escape a ++ escape b.
Proof. unfold escape. now rewrite !replace_app. Qed.

Lemma escape_one c : escape [c] = escape_char c.
Proof.
  unfold escape, escape_char, replace. cbn [flat_map]. rewrite app_nil_r.
  destruct (Z.eqb_spec c AMP) as [->|H1]; [reflexivity|].
  cbn [flat_map]. rewrite app_nil_r.
  destruct (Z.eqb_spec c LT) as [->|H2]; [reflexivity|].
  cbn [flat_map]. rewrite app_nil_r.
  destruct (Z.eqb_spec c GT) as [->|H3]; [reflexivity|].
  cbn [flat_map]. rewrite app_nil_r.
  destruct (Z.eqb_spec c QUOT) as [->|H4]; [reflexivity|].
  cbn [flat_map]. rewrite app_nil_r.
  destruct (Z.eqb_spec c APOS) as [->|H5]; reflexivity.
Qed.

Lemma escape_cons c s : escape (c :: s) = escape_char c ++ escape s.
Proof. now rewrite <- escape_one, <- escape_app. Qed.

Lemma escape_nil_inv s : escape s = [] -> s = [].
Proof.
  destruct s as [|c s]; trivial. rewrite escape_cons.
  unfold escape_char.
  destruct (c =? AMP), (c =? LT), (c =? GT), (c =? QUOT), (c =? APOS);
    discriminate.
Qed.

(** The five character references [escape] writes are read back as the
    character they stand for, whatever follows. *)
Lemma scan_entity c r :
  re_sub_call charref 0 (escape_char c ++ r)
  = rest <- re_sub_call charref 0 r ;; Some (c :: rest).
Proof.
  unfold escape_char.
  destruct (Z.eqb_spec c AMP) as [->|H1]; [reflexivity|].
  destruct (Z.eqb_spec c LT) as [->|H2]; [reflexivity|].
  destruct (Z.eqb_spec c GT) as [->|H3]; [reflexivity|].
  destruct (Z.eqb_spec c QUOT) as [->|H4]; [reflexivity|].
  destruct (Z.eqb_spec c APOS) as [->|H5]; [reflexivity|].
  cbn [app re_sub_call]. now rewrite charref_not_amp.
Qed.

Lemma unescape_escape s : unescape (escape s) = Some s.
Proof.
  rewrite unescape_scan.
  induction s as [|c s IH]; trivial.
  now rewrite escape_cons, scan_entity, IH.
Qed.

(** *** When [unescape] raises *)

Lemma rstrip_semi_length s : (length (rstrip_semi s) <= length s)%nat.
Proof.
  unfold rstrip_semi. rewrite length_rev.
  pose proof (drop_while_length (Z.eqb SEMI) (rev s)) as H.
  now rewrite length_rev in H.
Qed.

Lemma int_decimal_none ds :
  int_decimal ds = None ->
  (0 < int_max_str_digits < length ds)%nat.
Proof.
  unfold int_decimal.
  destruct (Nat.ltb_spec 0 int_max_str_digits); [|discriminate].
  destruct (Nat.ltb_spec 640 (length ds)); [|discriminate].
  destruct (Nat.ltb_spec int_max_str_digits (length ds)); [|discriminate].
  lia.
Qed.

Lemma opt_semi_length r : (length (opt_semi r) <= 1)%nat.
Proof.
  unfold opt_semi. destruct r as [|c r]; simpl; [lia|].
  destruct (c =? SEMI); simpl; lia.
Qed.

Lemma digit_not_x d : is_digit d = true -> (d =? 120) || (d =? 88) = false.
Proof.
  unfold is_digit, in_range. intros H.
  apply andb_true_iff in H as [H1 H2]. apply Z.leb_le in H1, H2.
  apply orb_false_iff. split; apply Z.eqb_neq; lia.
Qed.

(** The replacement function raises only on a decimal reference with more
    digits than the limit. *)
Lemma charref_raises s len :
  charref s = Some (len, None) ->
  (0 < int_max_str_digits < length s)%nat.
Proof.
  unfold charref. destruct s as [|a t]; [discriminate|].
  destruct (a =? AMP); [|discriminate].
  destruct (charref_group t) as [g|] eqn:Eg; [|discriminate].
  destruct (replace_charref g) eqn:Er; [discriminate|]. intros _.
  unfold charref_group in Eg. destruct t as [|c t1]; [discriminate|].
  destruct (Z.eqb_spec c HASH) as [->|Hc].
  - destruct (take_while is_digit t1) as [|d ds] eqn:Ed.
    + destruct t1 as [|x t2]; [discriminate|].
      destruct ((x =? 120) || (x =? 88)) eqn:Hx; [|discriminate].
      destruct (take_while is_hexdigit t2) as [|h hs]; [discriminate|].
      injection Eg as <-. exfalso.
      unfold replace_charref in Er. rewrite Z.eqb_refl, Hx in Er.
      discriminate.
    + pose proof (opt_semi_length (skipn (length (d :: ds)) t1)) as Ho.
      remember (opt_semi (skipn (length (d :: ds)) t1)) as semi.
      injection Eg as <-.
      pose proof (take_while_all is_digit t1) as Hall. rewrite Ed in Hall.
      apply Forall_inv in Hall. rename Hall into Hd. cbv beta in Hd.
      unfold replace_charref in Er. rewrite Z.eqb_refl in Er.
      cbn [app] in Er. rewrite (digit_not_x _ Hd) in Er.
      destruct (int_decimal _) eqn:Ei in Er; [discriminate|].
      apply int_decimal_none in Ei.
      pose proof (rstrip_semi_length (d :: ds ++ semi)) as Hr.
      pose proof (take_while_length is_digit t1) as Hl. rewrite Ed in Hl.
      cbn [length] in *. rewrite length_app in Hr. lia.
  - destruct (firstn 32 (take_while is_name_char (c :: t1))) as [|n ns]
      eqn:En; [discriminate|].
    injection Eg as <-. exfalso.
    cbn [take_while] in En.
    destruct (is_name_char c); [|discriminate].
    cbn [firstn] in En. injection En as <- _.
    unfold replace_charref in Er. cbn [app] in Er.
    destruct (Z.eqb_spec c HASH); [contradiction|].
    destruct (html5 _); [discriminate|].
    destruct (longest_name _ _); discriminate.
Qed.

Lemma re_sub_call_none m : forall s k,
  re_sub_call m k s = None ->
  exists pre s' len, s = pre ++ s' /\ m s' = Some (len, None).
Proof.
  induction s as [|c t IH]; intros k; [discriminate|].
  cbn [re_sub_call]. destruct k as [|k].
  - destruct (m (c :: t)) as [[len [r|]]|] eqn:E.
    + destruct (re_sub_call m (Nat.pred len) t) eqn:F; [discriminate|].
      intros _. destruct (IH _ F) as (pre & s' & l & -> & H).
      exists (c :: pre), s', l. auto.
    + intros _. exists [], (c :: t), len. auto.
    + destruct (re_sub_call m 0 t) eqn:F; [discriminate|].
      intros _. destruct (IH _ F) as (pre & s' & l & -> & H).
      exists (c :: pre), s', l. auto.
  - intros F. destruct (IH _ F) as (pre & s' & l & -> & H).
    exists (c :: pre), s', l. auto.
Qed.

Lemma unescape_none s :
  unescape s = None -> (0 < int_max_str_digits < length s)%nat.
Proof.
  rewrite unescape_scan. intros H.
  apply re_sub_call_none in H as (pre & s' & len & -> & H).
  apply charref_raises in H. rewrite length_app. lia.
Qed.

(** *** Tags *)

Lemma drop_not_gt_nil t : drop_while not_gt t = [] <-> ~ In GT t.
Proof.
  unfold not_gt. induction t as [|x t IH]; simpl; [tauto|].
  destruct (Z.eqb_spec x GT) as [->|Hx]; simpl.
  - split; [discriminate|]. intros H. exfalso. apply H. now left.
  - rewrite IH. split.
    + intros H [E|E]; [congruence|contradiction].
    + intros H E. apply H. now right.
Qed.

(** When the tag pattern does not match at [c :: t]: [c] is not [<], or
    nothing follows, or [>] follows at once, or no [>] follows at all. *)
Lemma tag_none c t :
  tag (c :: t) = None
  <-> (c = LT -> t = [] \/ hd_error t = Some GT \/ ~ In GT t).
Proof.
  unfold tag. fold not_gt.
  destruct (Z.eqb_spec c LT) as [->|Hc]; [|split; [contradiction|trivial]].
  destruct t as [|x t]; [split; auto|].
  cbn [take_while]. unfold not_gt at 1.
  destruct (Z.eqb_spec x GT) as [->|Hx]; cbn [negb].
  - split; trivial. intros _ _. right. now left.
  - cbn [length skipn]. rewrite skipn_take_while.
    destruct (drop_while not_gt t) as [|y r] eqn:E.
    + split; trivial. intros _ _. right. right.
      apply drop_not_gt_nil in E. intros [H|H]; [congruence|contradiction].
    + split; [discriminate|]. intros H.
      destruct (H eq_refl) as [H1|[H1|H1]]; [discriminate| |].
      * simpl in H1. congruence.
      * exfalso. assert (E' : drop_while not_gt t <> []) by congruence.
        apply E'. apply drop_not_gt_nil. intros Hin. apply H1. now right.
Qed.

Lemma tag_replaces_by_nothing s len r : tag s = Some (len, r) -> r = [].
Proof.
  unfold tag. destruct s as [|c t]; [discriminate|].
  destruct (c =? LT); [|discriminate].
  destruct (take_while _ t); [discriminate|].
  destruct (skipn _ t); [discriminate|]. now intros [= _ <-].
Qed.

Lemma re_sub_tag_in x : forall s k, In x (re_sub tag k s) -> In x s.
Proof.
  induction s as [|c t IH]; intros k; cbn [re_sub]; trivial.
  destruct k as [|k]; [|intros H; right; eapply IH; eauto].
  destruct (tag (c :: t)) as [[len r]|] eqn:E.
  - apply tag_replaces_by_nothing in E as ->. cbn [app].
    intros H. right. eapply IH; eauto.
  - intros [H|H]; [now left|right; eapply IH; eauto].
Qed.

Lemma re_sub_tag_gt t : re_sub tag 0 (GT :: t) = GT :: re_sub tag 0 t.
Proof. reflexivity. Qed.

(** Deleting the tags leaves no tag. *)
Lemma quiet_tag_re_sub : forall s k, quiet tag (re_sub tag k s).
Proof.
  induction s as [|c t IH]; intros k; cbn [re_sub]; [exact I|].
  destruct k as [|k]; [|apply IH].
  destruct (tag (c :: t)) as [[len r]|] eqn:E.
  - apply tag_replaces_by_nothing in E as ->. apply IH.
  - split; [|apply IH].
    apply tag_none. intros Hc.
    destruct (proj1 (tag_none c t) E Hc) as [->|[H|H]].
    + now left.
    + destruct t as [|x t']; [discriminate|]. injection H as ->.
      right. left. reflexivity.
    + right. right. intros Hin. apply H. eapply re_sub_tag_in; eauto.
Qed.

(** *** Whitespace *)

Lemma spaces_none c t : is_space c = false -> spaces (c :: t) = None.
Proof. intros H. unfold spaces. simpl. now rewrite H. Qed.

Lemma re_sub_spaces_other c t :
  is_space c = false ->
  re_sub spaces 0 (c :: t) = c :: re_sub spaces 0 t.
Proof. intros H. cbn [re_sub]. now rewrite spaces_none. Qed.

Lemma re_sub_spaces_space c t :
  is_space c = true ->
  re_sub spaces 0 (c :: t)
  = SPACE :: re_sub spaces 0 (drop_while is_space t).
Proof.
  intros H. cbn [re_sub]. unfold spaces. cbn [take_while]. rewrite H.
  cbn [length Nat.pred app]. now rewrite re_sub_skip, skipn_take_while.
Qed.

Lemma re_sub_spaces_in x s :
  In x (re_sub spaces 0 s) -> x = SPACE \/ In x s.
Proof.
  remember (length s) as n eqn:Hn. revert s Hn.
  induction n as [n IH] using lt_wf_ind. intros [|c t] Hn; [simpl; auto|].
  destruct (is_space c) eqn:E.
  - rewrite re_sub_spaces_space by trivial.
    intros [H|H]; [now left|].
    assert (Hl : (length (drop_while is_space t) <= length t)%nat).
    { rewrite <- (take_drop_while is_space t) at 2. rewrite length_app.
      lia. }
    destruct (IH (length (drop_while is_space t))
                ltac:(subst n; simpl; lia) _ eq_refl H) as [|Hin];
      [now left|].
    right. right. rewrite <- (take_drop_while is_space t).
    apply in_or_app. now right.
  - rewrite re_sub_spaces_other by trivial.
    intros [H|H]; [right; now left|].
    destruct (IH (length t) ltac:(subst n; simpl; lia) _ eq_refl H);
      [now left|right; now right].
Qed.

(** Collapsing whitespace makes no tag. *)
Lemma quiet_tag_spaces s : quiet tag s -> quiet tag (re_sub spaces 0 s).
Proof.
  remember (length s) as n eqn:Hn. revert s Hn.
  induction n as [n IH] using lt_wf_ind. intros [|c t] Hn Hq; trivial.
  destruct Hq as [Hc Hq]. destruct (is_space c) eqn:E.
  - rewrite re_sub_spaces_space by trivial. split.
    + apply tag_none. discriminate.
    + apply (IH (length (drop_while is_space t))); trivial.
      * pose proof (drop_while_length is_space t). subst n. simpl. lia.
      * now apply quiet_drop_while.
  - rewrite re_sub_spaces_other by trivial. split.
    + apply tag_none. intros Hlt.
      destruct (proj1 (tag_none c t) Hc Hlt) as [->|[H|H]].
      * now left.
      * destruct t as [|x t']; [discriminate|]. injection H as ->.
        right. left. now rewrite re_sub_spaces_other.
      * right. right. intros Hin.
        apply re_sub_spaces_in in Hin as [Hin|Hin]; [discriminate|auto].
    + apply (IH (length t)); trivial. subst n. simpl. lia.
Qed.

Lemma tidy_re_sub_spaces s : tidy (re_sub spaces 0 s).
Proof.
  remember (length s) as n eqn:Hn. revert s Hn.
  induction n as [n IH] using lt_wf_ind. intros [|c t] Hn; [exact I|].
  destruct (is_space c) eqn:E.
  - rewrite re_sub_spaces_space by trivial.
    pose proof (drop_while_length is_space t) as Hl.
    pose proof (drop_while_head is_space t) as Hh.
    split.
    + intros _. split; trivial.
      destruct (drop_while is_space t) as [|d r]; trivial.
      now rewrite re_sub_spaces_other.
    + apply (IH (length (drop_while is_space t))); trivial.
      subst n. simpl. lia.
  - rewrite re_sub_spaces_other by trivial.
    split; [congruence|].
    apply (IH (length t)); trivial. subst n. simpl. lia.
Qed.

Lemma tidy_fixed s : tidy s -> re_sub spaces 0 s = s.
Proof.
  induction s as [|c t IH]; trivial. intros [Hc Ht].
  destruct (is_space c) eqn:E.
  - rewrite re_sub_spaces_space by trivial.
    destruct (Hc eq_refl) as [-> Hn].
    rewrite drop_while_fixed by exact Hn. now rewrite IH.
  - rewrite re_sub_spaces_other by trivial. now rewrite IH.
Qed.

(** *** [strip] *)

Lemma rstrip_split u :
  exists ws, u = rstrip u ++ ws /\ Forall (fun c => is_space c = true) ws.
Proof.
  exists (rev (take_while is_space (rev u))). split.
  - unfold rstrip. rewrite <- rev_app_distr, take_drop_while.
    now rewrite rev_involutive.
  - apply Forall_rev, take_while_all.
Qed.

Lemma rstrip_fixed u : rstrip (rstrip u) = rstrip u.
Proof.
  unfold rstrip. rewrite rev_involutive. f_equal.
  apply drop_while_fixed, drop_while_head.
Qed.

Lemma rstrip_head u :
  match u with [] => True | c :: _ => is_space c = false end ->
  match rstrip u with [] => True | c :: _ => is_space c = false end.
Proof.
  destruct (rstrip_split u) as (ws & Hu & _).
  destruct (rstrip u) as [|c r]; trivial.
  rewrite Hu. trivial.
Qed.

Lemma strip_fixed s : strip (strip s) = strip s.
Proof.
  unfold strip at 1. unfold lstrip.
  rewrite drop_while_fixed.
  - apply rstrip_fixed.
  - apply rstrip_head, drop_while_head.
Qed.

Lemma quiet_tag_prefix v : forall ws,
  Forall (fun c => is_space c = true) ws ->
  quiet tag (v ++ ws) -> quiet tag v.
Proof.
  induction v as [|c v IH]; intros ws Hws; [intros _; exact I|].
  cbn [app quiet]. intros [Hc Hq]. split; [|eapply IH; eauto].
  apply tag_none. intros Hlt.
  destruct (proj1 (tag_none _ _) Hc Hlt) as [H|[H|H]].
  - apply app_eq_nil in H as [-> _]. now left.
  - destruct v as [|d v]; [|right; left; exact H].
    destruct Hws as [|w ws Hw _]; [discriminate|].
    simpl in H. injection H as ->. discriminate.
  - right. right. intros Hin. apply H, in_or_app. now left.
Qed.

Lemma quiet_tag_strip s : quiet tag s -> quiet tag (strip s).
Proof.
  intros H. unfold strip.
  destruct (rstrip_split (lstrip s)) as (ws & Hu & Hws).
  apply (quiet_tag_prefix _ ws Hws). rewrite <- Hu.
  now apply quiet_drop_while.
Qed.

Lemma tidy_drop_while p s : tidy s -> tidy (drop_while p s).
Proof.
  induction s as [|c t IH]; trivial. intros H. simpl.
  destruct (p c); [apply IH, H|exact H].
Qed.

Lemma tidy_prefix v : forall w, tidy (v ++ w) -> tidy v.
Proof.
  induction v as [|c v IH]; intros w; [intros _; exact I|].
  cbn [app tidy]. intros [Hc Ht]. split; [|eapply IH; eauto].
  intros Hs. destruct (Hc Hs) as [-> Hn]. split; trivial.
  destruct v; trivial.
Qed.

Lemma tidy_strip s : tidy s -> tidy (strip s).
Proof.
  intros H. unfold strip.
  destruct (rstrip_split (lstrip s)) as (ws & Hu & _).
  apply (tidy_prefix _ ws). rewrite <- Hu. now apply tidy_drop_while.
Qed.

Lemma safe_cons c t :
  safe (c :: t) = u <- unescape (c :: t) ;; Some (escape (cleaned u)).
Proof. reflexivity. Qed.

(** A cleaned text is cleaned again to itself. *)
Lemma cleaned_fixed u : cleaned (cleaned u) = cleaned u.
Proof.
  assert (Hq : quiet tag (cleaned u)).
  { apply quiet_tag_strip, quiet_tag_spaces, quiet_tag_re_sub. }
  assert (Ht : tidy (cleaned u)).
  { apply tidy_strip, tidy_re_sub_spaces. }
  unfold cleaned at 1.
  rewrite (re_sub_quiet _ _ Hq), (tidy_fixed _ Ht).
  apply strip_fixed.
Qed.

Lemma safe_escape_cleaned u :
  safe (escape (cleaned u)) = Some (escape (cleaned u)).
Proof.
  destruct (escape (cleaned u)) as [|d r] eqn:E; [reflexivity|].
  rewrite safe_cons, <- E.
  now rewrite unescape_escape, cleaned_fixed.
Qed.

(** C8: for every text x, safe (safe x) = safe x: the entities are
    decoded, the tags deleted, the whitespace runs collapsed to one space,
    the ends stripped and the markup characters escaped again, and a
    second pass returns its argument (and where the first pass raises, so
    does the composition).  The first pass returns on every text, unless
    the interpreter limits the digits of integer conversion and the text
    is longer than the limit. *)
Theorem safe_idempotent (x : text) :
  (y <- safe x ;; safe y) = safe x
  /\ (safe x = None -> (0 < int_max_str_digits < length x)%nat).
Proof.
  destruct x as [|c t].
  - split; [reflexivity|discriminate].
  - rewrite safe_cons. split.
    + destruct (unescape (c :: t)) as [u|]; [|reflexivity].
      apply safe_escape_cleaned.
    + destruct (unescape (c :: t)) as [u|] eqn:E; [discriminate|].
      intros _. now apply unescape_none.
Qed.

(** ** Fingerprint *)

(** A boolean property checked on 0 .. n-1 holds below n. *)
Lemma below_all (n : nat) (P : Z -> bool) :
  forallb P (map Z.of_nat (seq 0 n)) = true ->
  forall x, 0 <= x < Z.of_nat n -> P x = true.
Proof.
  intros H x Hx. rewrite forallb_forall in H. apply H.
  apply in_map_iff. exists (Z.to_nat x). split; [lia|].
  apply in_seq. lia.
Qed.

Lemma lor_low (hi : Z) (n : nat) x :
  forallb (fun x => Z.lor hi x =? hi + x) (map Z.of_nat (seq 0 n)) = true ->
  0 <= x < Z.of_nat n -> Z.lor hi x = hi + x.
Proof.
  intros H Hx. apply Z.eqb_eq.
  exact (below_all n (fun x => Z.lor hi x =? hi + x) H x Hx).
Qed.

Lemma shiftr_div c n : 0 <= n -> Z.shiftr c n = c / 2 ^ n.
Proof. apply Z.shiftr_div_pow2. Qed.

Lemma land_3F c : Z.land c 0x3F = c mod 64.
Proof. change 0x3F with (Z.ones 6). now rewrite Z.land_ones. Qed.

(** The bytes of a continuation position and of the three kinds of
    leading byte, as sums. *)
Lemma cont_byte x : Z.lor 0x80 (x mod 64) = 128 + x mod 64.
Proof.
  apply (lor_low _ 64); [vm_compute; reflexivity|].
  apply Z.mod_pos_bound. lia.
Qed.

Lemma lead2 c : 0 <= c < 0x800 -> Z.lor 0xC0 (c / 64) = 192 + c / 64.
Proof.
  intros H. apply (lor_low _ 32); [vm_compute; reflexivity|].
  split; [apply Z.div_pos; lia|apply Z.div_lt_upper_bound; lia].
Qed.

Lemma lead3 c : 0 <= c < 0x10000 -> Z.lor 0xE0 (c / 4096) = 224 + c / 4096.
Proof.
  intros H. apply (lor_low _ 16); [vm_compute; reflexivity|].
  split; [apply Z.div_pos; lia|apply Z.div_lt_upper_bound; lia].
Qed.

Lemma lead4 c :
  0 <= c <= 0x10FFFF -> Z.lor 0xF0 (c / 262144) = 240 + c / 262144.
Proof.
  intros H. apply (lor_low _ 8); [vm_compute; reflexivity|].
  split; [apply Z.div_pos; lia|apply Z.div_lt_upper_bound; lia].
Qed.

Lemma div_4096 c : c / 4096 = c / 64 / 64.
Proof. now rewrite Z.div_div by lia. Qed.

Lemma div_262144 c : c / 262144 = c / 64 / 64 / 64.
Proof. now rewrite !Z.div_div by lia. Qed.

(** The encoding of a code point, with the bit operations read as
    arithmetic. *)
Lemma utf8_char_spec c u :
  utf8_char c = Some u ->
  (0 <= c < 0x80 /\ u = [c])
  \/ (0x80 <= c < 0x800 /\ u = [192 + c / 64; 128 + c mod 64])
  \/ (0x800 <= c < 0x10000
      /\ u = [224 + c / 64 / 64; 128 + (c / 64) mod 64; 128 + c mod 64])
  \/ (0x10000 <= c <= 0x10FFFF
      /\ u = [240 + c / 64 / 64 / 64; 128 + (c / 64 / 64) mod 64;
              128 + (c / 64) mod 64; 128 + c mod 64]).
Proof.
  unfold utf8_char, in_range.
  rewrite !land_3F, !cont_byte, !shiftr_div by lia.
  change (2 ^ 6) with 64. change (2 ^ 12) with 4096.
  change (2 ^ 18) with 262144.
  destruct (Z.ltb_spec c 0); [discriminate|].
  destruct (Z.ltb_spec c 0x80); [intros [= <-]; left; split; [lia|easy]|].
  destruct (Z.ltb_spec c 0x800).
  { rewrite lead2 by lia. intros [= <-]. right. left. split; [lia|easy]. }
  destruct (Z.ltb_spec c 0x10000).
  { destruct ((0xD800 <=? c) && (c <=? 0xDFFF)); [discriminate|].
    rewrite lead3, div_4096 by lia.
    intros [= <-]. right. right. left. split; [lia|easy]. }
  destruct (Z.leb_spec c 0x10FFFF); [|discriminate].
  rewrite lead4, div_262144, div_4096 by lia.
  intros [= <-]. right. right. right. split; [lia|easy].
Qed.

Lemma cons_eq {A} (x y : A) l m : x :: l = y :: m -> x = y /\ l = m.
Proof. now intros [= -> ->]. Qed.

(** No encoding of a code point is the beginning of another one. *)
Lemma utf8_char_inj c1 c2 u1 u2 r1 r2 :
  utf8_char c1 = Some u1 -> utf8_char c2 = Some u2 ->
  u1 ++ r1 = u2 ++ r2 -> c1 = c2 /\ r1 = r2.
Proof.
  intros H1 H2 E.
  apply utf8_char_spec in H1, H2.
  assert (N1 : 0 <= c1) by (destruct H1 as [?|[?|[?|?]]]; lia).
  assert (N2 : 0 <= c2) by (destruct H2 as [?|[?|[?|?]]]; lia).
  assert (D1 : 0 <= c1 / 64 /\ 0 <= c1 / 64 / 64 /\ 0 <= c1 / 64 / 64 / 64).
  { repeat split; repeat apply Z.div_pos; lia. }
  assert (D2 : 0 <= c2 / 64 /\ 0 <= c2 / 64 / 64 /\ 0 <= c2 / 64 / 64 / 64).
  { repeat split; repeat apply Z.div_pos; lia. }
  pose proof (Z.div_mod c1 64 ltac:(lia)) as M1.
  pose proof (Z.div_mod (c1 / 64) 64 ltac:(lia)) as M1'.
  pose proof (Z.div_mod (c1 / 64 / 64) 64 ltac:(lia)) as M1''.
  pose proof (Z.div_mod c2 64 ltac:(lia)) as M2.
  pose proof (Z.div_mod (c2 / 64) 64 ltac:(lia)) as M2'.
  pose proof (Z.div_mod (c2 / 64 / 64) 64 ltac:(lia)) as M2''.
  pose proof (Z.mod_pos_bound c1 64 ltac:(lia)) as P1.
  pose proof (Z.mod_pos_bound (c1 / 64) 64 ltac:(lia)) as P1'.
  pose proof (Z.mod_pos_bound (c1 / 64 / 64) 64 ltac:(lia)) as P1''.
  pose proof (Z.mod_pos_bound c2 64 ltac:(lia)) as P2.
  pose proof (Z.mod_pos_bound (c2 / 64) 64 ltac:(lia)) as P2'.
  pose proof (Z.mod_pos_bound (c2 / 64 / 64) 64 ltac:(lia)) as P2''.
  destruct H1 as [[B1 ->]|[[B1 ->]|[[B1 ->]|[B1 ->]]]];
    destruct H2 as [[B2 ->]|[[B2 ->]|[[B2 ->]|[B2 ->]]]];
    cbn [app] in E;
    repeat (apply cons_eq in E; destruct E as [? E]);
    (split; [lia|first [assumption|exfalso; lia]]).
Qed.

Lemma encode_inj s1 : forall s2 b,
  encode s1 = Some b -> encode s2 = Some b -> s1 = s2.
Proof.
  induction s1 as [|c1 s1 IH]; intros [|c2 s2] b; simpl.
  - trivial.
  - intros [= <-].
    destruct (utf8_char c2) as [u|] eqn:E; [|discriminate].
    destruct (encode s2); [|discriminate]. intros [= H].
    apply utf8_char_spec in E.
    destruct E as [[_ ->]|[[_ ->]|[[_ ->]|[_ ->]]]]; discriminate.
  - destruct (utf8_char c1) as [u|] eqn:E; [|discriminate].
    destruct (encode s1); [|discriminate]. intros [= <-] [= H].
    apply utf8_char_spec in E.
    destruct E as [[_ ->]|[[_ ->]|[[_ ->]|[_ ->]]]]; discriminate.
  - destruct (utf8_char c1) as [u1|] eqn:E1; [|discriminate].
    destruct (encode s1) as [b1|] eqn:F1; [|discriminate].
    destruct (utf8_char c2) as [u2|] eqn:E2; [|discriminate].
    destruct (encode s2) as [b2|] eqn:F2; [|discriminate].
    intros [= <-] [= H].
    destruct (utf8_char_inj _ _ _ _ _ _ E1 E2 (eq_sym H)) as [-> ->].
    f_equal. eapply IH; eauto.
Qed.

Lemma round_length s kw : length (Sha256.round s kw) = length s.
Proof.
  destruct s as [|a [|b [|c [|d [|e [|f [|g [|h [|i s]]]]]]]]];
    reflexivity.
Qed.

Lemma compress_length h block :
  length h = 8%nat -> length (Sha256.compress h block) = 8%nat.
Proof.
  intros H. unfold Sha256.compress.
  rewrite length_map, length_combine.
  assert (E : forall l s, length (fold_left Sha256.round l s) = length s).
  { induction l as [|x l IH]; intros s; simpl; trivial.
    now rewrite IH, round_length. }
  rewrite E, H. reflexivity.
Qed.

Lemma blocks_length n : forall h bytes,
  length h = 8%nat -> length (Sha256.blocks n h bytes) = 8%nat.
Proof.
  induction n as [|n IH]; intros h bytes H; simpl; trivial.
  destruct bytes; trivial. now apply IH, compress_length.
Qed.

Lemma be_bytes_bytes n : forall x,
  length (Sha256.be_bytes n x) = n
  /\ Forall (fun b => 0 <= b < 256) (Sha256.be_bytes n x).
Proof.
  induction n as [|n IH]; intros x; simpl; [split; trivial|].
  destruct (IH (Z.shiftr x 8)) as [Hl Hb]. split.
  - rewrite length_app, Hl. simpl. lia.
  - apply Forall_app. split; trivial. constructor; [|constructor].
    change 0xff with (Z.ones 8). rewrite Z.land_ones by lia.
    apply Z.mod_pos_bound. reflexivity.
Qed.

Lemma digest_bytes msg :
  length (Sha256.digest msg) = 32%nat
  /\ Forall (fun b => 0 <= b < 256) (Sha256.digest msg).
Proof.
  unfold Sha256.digest.
  pose proof (blocks_length (length (Sha256.pad msg)) Sha256.H0
                (Sha256.pad msg) eq_refl) as H.
  revert H. generalize (Sha256.blocks (length (Sha256.pad msg)) Sha256.H0
                          (Sha256.pad msg)) as l.
  intros l H.
  assert (E : length (flat_map (Sha256.be_bytes 4) l) = (4 * length l)%nat
              /\ Forall (fun b => 0 <= b < 256)
                   (flat_map (Sha256.be_bytes 4) l)).
  { clear H. induction l as [|x l [IH1 IH2]];
      [split; [reflexivity|constructor]|].
    cbn [flat_map]. destruct (be_bytes_bytes 4 x) as [Hl Hb]. split.
    - rewrite length_app, Hl, IH1. simpl. lia.
    - apply Forall_app. now split. }
  destruct E as [E1 E2]. split; trivial. rewrite E1, H. reflexivity.
Qed.

Lemma hex_byte_decode b :
  0 <= b < 256 ->
  16 * hex_value (Sha256.hex_digit (Z.shiftr b 4))
  + hex_value (Sha256.hex_digit (Z.land b 15)) = b.
Proof.
  intros H. apply Z.eqb_eq. revert b H.
  apply (below_all 256
           (fun b => 16 * hex_value (Sha256.hex_digit (Z.shiftr b 4))
                     + hex_value (Sha256.hex_digit (Z.land b 15)) =? b)).
  vm_compute. reflexivity.
Qed.

(** Writing bytes in hexadecimal loses nothing. *)
Lemma hex_inj (l m : list Z) :
  Forall (fun b => 0 <= b < 256) l -> Forall (fun b => 0 <= b < 256) m ->
  flat_map (fun b => [Sha256.hex_digit (Z.shiftr b 4);
                      Sha256.hex_digit (Z.land b 15)]) l
  = flat_map (fun b => [Sha256.hex_digit (Z.shiftr b 4);
                        Sha256.hex_digit (Z.land b 15)]) m ->
  l = m.
Proof.
  intros Hl. revert m.
  induction Hl as [|x l Hx Hl IH]; intros m Hm E; destruct Hm as [|y m Hy Hm];
    trivial; cbn [flat_map app] in E; try discriminate.
  apply cons_eq in E. destruct E as [E1 E].
  apply cons_eq in E. destruct E as [E2 E].
  f_equal; [|now apply IH].
  rewrite <- (hex_byte_decode x Hx), <- (hex_byte_decode y Hy).
  now rewrite E1, E2.
Qed.

Lemma hexdigest_inj x y :
  Sha256.hexdigest x = Sha256.hexdigest y
  <-> Sha256.digest x = Sha256.digest y.
Proof.
  unfold Sha256.hexdigest. split; [|now intros ->].
  apply hex_inj; apply digest_bytes.
Qed.

(** C2 (amended): the fingerprint is a function of the concatenation
    id + link.  Items with the same concatenation, in particular with the
    same id and the same link, have the same fingerprint; moving
    characters from the end of the id to the start of the link never
    changes it.  Two items whose concatenations differ have as
    fingerprints the hexadecimal SHA-256 digests of two different byte
    strings, and the fingerprints are equal exactly when the two digests
    are: on a collision of the hash function.  The digest is the one of
    the standard: on the concatenation 'abc' and on the empty one the
    fingerprints are the published values, which differ. *)
Theorem fingerprint_of_concatenation (a b : entry) :
  (id a ++ link a = id b ++ link b -> post_id a = post_id b)
  /\ (forall x y z t s,
        post_id (mkEntry (x ++ y) z t s) = post_id (mkEntry x (y ++ z) t s))
  /\ (id a ++ link a <> id b ++ link b ->
      forall fa fb, post_id a = Some fa -> post_id b = Some fb ->
      exists x y,
        x <> y
        /\ encode (id a ++ link a) = Some x
        /\ encode (id b ++ link b) = Some y
        /\ fa = Sha256.hexdigest x /\ fb = Sha256.hexdigest y
        /\ (fa = fb <-> Sha256.digest x = Sha256.digest y))
  /\ post_id (mkEntry (str "ab") (str "c") [] []) = Some sha256_of_abc
  /\ post_id (mkEntry [] [] [] []) = Some sha256_of_empty
  /\ sha256_of_abc <> sha256_of_empty.
Proof.
  unfold post_id. split; [|split; [|split; [|split; [|split]]]].
  - now intros ->.
  - intros x y z t s. cbn [id link]. now rewrite app_assoc.
  - intros Hne fa fb.
    destruct (encode (id a ++ link a)) as [x|] eqn:Ea; [|discriminate].
    destruct (encode (id b ++ link b)) as [y|] eqn:Eb; [|discriminate].
    intros [= <-] [= <-]. exists x, y. repeat split; trivial.
    + intros ->. apply Hne. eapply encode_inj; eauto.
    + apply hexdigest_inj.
    + apply hexdigest_inj.
  - vm_compute. reflexivity.
  - vm_compute. reflexivity.
  - discriminate.
Qed.

(** ** Further properties: dispatcher *)

(** X1: the drain loop removes from the head of the queue exactly as many
    messages as there are answers that are not failures (all of them when
    there are at least as many), and keeps the others in order. *)
Theorem drain_removes_accepted (envs : list send_env) : forall st,
  queue (drain envs st) = skipn (ok_answers envs) (queue st).
Proof.
  unfold ok_answers.
  induction envs as [|env envs IH]; intros st; [reflexivity|].
  cbn [drain filter].
  destruct (queue st) as [|m q] eqn:Hq.
  - rewrite Hq. now rewrite skipn_nil.
  - rewrite IH. destruct (failed (resp env)) eqn:Hf; cbn [negb length].
    + rewrite send_worker_failed by congruence. cbn [queue set_backoff].
      now rewrite Hq.
    + rewrite (send_worker_ok env st m q Hf Hq). reflexivity.
Qed.

(** X2: a call of the dispatcher on an empty queue does nothing outside; on
    a non-empty queue it posts once, the head message cut to its first
    4000 characters, after at most two sleeps, each of positive length. *)
Theorem send_worker_posts_once env st :
  (queue st = [] -> send_worker_io env st = [])
  /\ (forall msg rest, queue st = msg :: rest ->
      exists sleeps,
        send_worker_io env st
        = map Sleep sleeps ++ [Post (firstn 4000 msg)]
        /\ (length sleeps <= 2)%nat
        /\ Forall (fun d => (0 < d)%Q) sleeps
        /\ (length (firstn 4000 msg) <= 4000)%nat
        /\ (length (firstn 4000 msg) <= length msg)%nat).
Proof.
  unfold send_worker_io. split; [now intros ->|].
  intros msg rest ->.
  set (wait := fsub SEND_INTERVAL (fsub (t_wait env) (last_send st))).
  exists ((if 0 <? backoff st then [inject_Z (backoff st)] else [])
          ++ (if Qltb 0 wait then [wait] else [])).
  repeat split.
  - rewrite map_app, <- app_assoc.
    destruct (0 <? backoff st), (Qltb 0 wait); reflexivity.
  - destruct (0 <? backoff st), (Qltb 0 wait); simpl; lia.
  - apply Forall_app. split.
    + destruct (Z.ltb_spec 0 (backoff st)); constructor; [|constructor].
      unfold Qlt. simpl. lia.
    + unfold Qltb. destruct (Qle_bool wait 0) eqn:E; constructor;
        [|constructor].
      apply Qnot_le_lt. intros Hle. apply Qle_bool_iff in Hle. congruence.
  - rewrite length_firstn. lia.
  - rewrite length_firstn. lia.
Qed.

(** *** Rounding to a double *)

Lemma pow2_pos (e : Z) : (0 < 2 ^ e)%Q.
Proof. now apply Qpower_0_lt. Qed.

Lemma pow2_nonzero (e : Z) : ~ (2 ^ e == 0)%Q.
Proof.
  intros H. pose proof (pow2_pos e) as P. rewrite H in P. discriminate.
Qed.

Lemma pow2_Z (k : Z) : 0 <= k -> (inject_Z (2 ^ k) == 2 ^ k)%Q.
Proof. intros H. now rewrite Zpower_Qpower. Qed.

Lemma pow2_add (a b : Z) : (2 ^ (a + b) == 2 ^ a * 2 ^ b)%Q.
Proof. apply Qpower_plus. discriminate. Qed.

Lemma pow2_sub (a b : Z) :
  0 <= a -> 0 <= b ->
  (2 ^ (a - b) == inject_Z (2 ^ a) / inject_Z (2 ^ b))%Q.
Proof.
  intros Ha Hb. rewrite !pow2_Z by trivial. apply Qpower_minus. discriminate.
Qed.

Lemma frac_lt (n d x y : Z) :
  0 < d -> 0 < y -> n * y < x * d ->
  (inject_Z n / inject_Z d < inject_Z x / inject_Z y)%Q.
Proof.
  intros Hd Hy H.
  apply Qlt_shift_div_l; [unfold Qlt; simpl; lia|].
  unfold Qdiv. rewrite <- Qmult_assoc, (Qmult_comm (/ _)), Qmult_assoc.
  apply Qlt_shift_div_r; [unfold Qlt; simpl; lia|].
  rewrite <- !inject_Z_mult, <- Zlt_Qlt. exact H.
Qed.

Lemma frac_le (n d x y : Z) :
  0 < d -> 0 < y -> x * d <= n * y ->
  (inject_Z x / inject_Z y <= inject_Z n / inject_Z d)%Q.
Proof.
  intros Hd Hy H.
  apply Qle_shift_div_l; [unfold Qlt; simpl; lia|].
  unfold Qdiv. rewrite <- Qmult_assoc, (Qmult_comm (/ _)), Qmult_assoc.
  apply Qle_shift_div_r; [unfold Qlt; simpl; lia|].
  rewrite <- !inject_Z_mult, <- Zle_Qle. exact H.
Qed.

Lemma ilog2_spec (q : Q) :
  (0 < q)%Q -> (2 ^ ilog2 q <= q)%Q /\ (q < 2 ^ (ilog2 q + 1))%Q.
Proof.
  intros Hq. unfold ilog2.
  set (n := Qnum q). set (d := Z.pos (Qden q)).
  assert (Hn : 0 < n) by (unfold Qlt in Hq; simpl in Hq; unfold n; lia).
  assert (Hd : 0 < d) by (unfold d; lia).
  destruct (Z.log2_spec n Hn) as [Hn1 Hn2].
  destruct (Z.log2_spec d Hd) as [Hd1 Hd2].
  set (a := Z.log2 n) in *. set (b := Z.log2 d) in *.
  assert (Ha : 0 <= a) by apply Z.log2_nonneg.
  assert (Hb : 0 <= b) by apply Z.log2_nonneg.
  assert (Pa : 0 < 2 ^ a) by (apply Z.pow_pos_nonneg; lia).
  assert (Pb : 0 < 2 ^ b) by (apply Z.pow_pos_nonneg; lia).
  assert (Sa : 2 ^ Z.succ a = 2 * 2 ^ a) by (apply Z.pow_succ_r; lia).
  assert (Sb : 2 ^ Z.succ b = 2 * 2 ^ b) by (apply Z.pow_succ_r; lia).
  assert (E : (q == inject_Z n / inject_Z d)%Q).
  { unfold n, d. destruct q as [qn qd]. simpl. apply Qmake_Qdiv. }
  assert (Up : (q < 2 ^ (a - b + 1))%Q).
  { replace (a - b + 1) with (Z.succ a - b) by lia.
    rewrite pow2_sub, E by lia. apply frac_lt; trivial. nia. }
  assert (Lo : (2 ^ (a - b - 1) <= q)%Q).
  { replace (a - b - 1) with (a - Z.succ b) by lia.
    rewrite pow2_sub, E by lia. apply frac_le; trivial; nia. }
  destruct (Qle_bool (2 ^ (a - b)) q) eqn:C.
  - split; [now apply Qle_bool_iff|exact Up].
  - split; [exact Lo|].
    replace (a - b - 1 + 1) with (a - b) by lia.
    apply Qnot_le_lt. intros H. apply Qle_bool_iff in H. congruence.
Qed.

Lemma rint_comp (x y : Q) : (x == y)%Q -> rint x = rint y.
Proof.
  intros H. unfold rint. rewrite (Qfloor_comp x y H).
  assert (E : (x - inject_Z (Qfloor y) == y - inject_Z (Qfloor y))%Q)
    by now rewrite H.
  now rewrite (Qcompare_comp _ _ E (1 # 2) (1 # 2) (Qeq_refl _)).
Qed.

Lemma rint_Z (k : Z) : rint (inject_Z k) = k.
Proof.
  unfold rint. rewrite Qfloor_Z.
  replace (inject_Z k - inject_Z k ?= 1 # 2)%Q with Lt; trivial.
  symmetry. apply Qlt_alt.
  assert (E : (inject_Z k - inject_Z k == 0)%Q) by ring.
  rewrite E. reflexivity.
Qed.

Lemma rint_lower (x : Q) : Qfloor x <= rint x <= Qfloor x + 1.
Proof.
  unfold rint. destruct (_ ?= _)%Q; [destruct (Z.even _)| |]; lia.
Qed.

Lemma rint_ge (k : Z) (x : Q) : (inject_Z k <= x)%Q -> k <= rint x.
Proof.
  intros H. apply Qfloor_resp_le in H. rewrite Qfloor_Z in H.
  pose proof (rint_lower x). lia.
Qed.

Lemma rint_le (k : Z) (x : Q) : (x <= inject_Z k)%Q -> rint x <= k.
Proof.
  intros H. pose proof (rint_lower x) as L.
  destruct (Z_lt_le_dec (Qfloor x) k) as [Hlt|Hge]; [lia|].
  assert (E : (x == inject_Z k)%Q).
  { apply Qle_antisym; trivial.
    apply Qle_trans with (inject_Z (Qfloor x)); [|apply Qfloor_le].
    now rewrite <- Zle_Qle. }
  rewrite (rint_comp _ _ E), rint_Z. lia.
Qed.

Lemma round_double_eq (q : Q) :
  ~ (q == 0)%Q ->
  round_double q
  = (inject_Z (rint (q / 2 ^ ulp_exp q)) * 2 ^ ulp_exp q)%Q.
Proof.
  intros H. unfold round_double.
  destruct (Qeq_bool q 0) eqn:E; trivial.
  apply Qeq_bool_iff in E. contradiction.
Qed.

Lemma Qabs_pos_lt (q : Q) : ~ (q == 0)%Q -> (0 < Qabs q)%Q.
Proof.
  intros H. destruct (Qlt_le_dec 0 (Qabs q)) as [|L]; trivial.
  exfalso. apply H. apply Qabs_Qle_condition in L. destruct L as [L1 L2].
  now apply Qle_antisym.
Qed.

Lemma ilog2_abs (q : Q) :
  (0 < q)%Q ->
  (2 ^ ilog2 (Qabs q) <= q)%Q /\ (q < 2 ^ (ilog2 (Qabs q) + 1))%Q.
Proof.
  intros H. assert (E : (Qabs q == q)%Q) by now apply Qabs_pos, Qlt_le_weak.
  assert (P : (0 < Qabs q)%Q) by now rewrite E.
  destruct (ilog2_spec _ P) as [Lo Up].
  split; [eapply Qle_trans; [exact Lo|]|eapply Qle_lt_trans; [|exact Up]];
    rewrite E; apply Qle_refl.
Qed.

Lemma scale_Z (k : Z) (g u : Z) :
  u <= g ->
  (inject_Z k * 2 ^ g / 2 ^ u == inject_Z (k * 2 ^ (g - u)))%Q.
Proof.
  intros H. rewrite inject_Z_mult, pow2_Z by lia.
  rewrite Qpower_minus by discriminate. unfold Qdiv. ring.
Qed.

Lemma unscale_Z (k : Z) (g u : Z) :
  u <= g ->
  (inject_Z (k * 2 ^ (g - u)) * 2 ^ u == inject_Z k * 2 ^ g)%Q.
Proof.
  intros H. rewrite inject_Z_mult, pow2_Z by lia.
  rewrite Qpower_minus by discriminate. field. apply pow2_nonzero.
Qed.

(** A rational with a mantissa of at most 53 bits on a grid not finer
    than that of the subnormal numbers is a double: rounding returns
    it. *)
Lemma round_exact (q : Q) (k g : Z) :
  (q == inject_Z k * 2 ^ g)%Q -> -1074 <= g -> Z.abs k < 2 ^ 53 ->
  (round_double q == q)%Q.
Proof.
  intros E Hg Hk. unfold round_double.
  destruct (Qeq_bool q 0) eqn:Z0.
  { apply Qeq_bool_iff in Z0. now rewrite Z0. }
  assert (N0 : ~ (q == 0)%Q).
  { intros H. apply Qeq_bool_iff in H. congruence. }
  destruct (ilog2_spec _ (Qabs_pos_lt q N0)) as [Lo _].
  assert (A : (Qabs q < 2 ^ (53 + g))%Q).
  { rewrite E, Qabs_Qmult, (Qabs_pos (2 ^ g)) by apply Qlt_le_weak, pow2_pos.
    rewrite pow2_add. apply Qmult_lt_compat_r; [apply pow2_pos|].
    rewrite <- pow2_Z by lia.
    assert (Ek : (Qabs (inject_Z k) == inject_Z (Z.abs k))%Q).
    { unfold inject_Z. now rewrite <- Zabs_Qabs. }
    rewrite Ek, <- Zlt_Qlt. exact Hk. }
  assert (Hu : ulp_exp q <= g).
  { unfold ulp_exp.
    assert (ilog2 (Qabs q) < 53 + g); [|lia].
    apply (Qpower_lt_compat_l_inv 2); [|reflexivity].
    eapply Qle_lt_trans; eauto. }
  set (u := ulp_exp q) in *.
  assert (X : (q / 2 ^ u == inject_Z (k * 2 ^ (g - u)))%Q).
  { rewrite <- scale_Z by trivial. now rewrite E. }
  rewrite (rint_comp _ _ X), rint_Z, unscale_Z by trivial.
  now rewrite E.
Qed.

Lemma round_nonpos (q : Q) : (q <= 0)%Q -> (round_double q <= 0)%Q.
Proof.
  intros H. unfold round_double.
  destruct (Qeq_bool q 0); [apply Qle_refl|].
  set (u := ulp_exp q).
  assert (R : rint (q / 2 ^ u) <= 0).
  { apply rint_le. apply Qle_shift_div_r; [apply pow2_pos|].
    now rewrite Qmult_0_l. }
  rewrite Zle_Qle in R.
  apply (Qmult_le_compat_r _ _ (2 ^ u)) in R;
    [|apply Qlt_le_weak, pow2_pos].
  now rewrite Qmult_0_l in R.
Qed.

(** Rounding does not go below a double under the number rounded. *)
Lemma round_ge_double (q : Q) (k g : Z) :
  2 ^ 52 <= k < 2 ^ 53 -> -1074 <= g ->
  (inject_Z k * 2 ^ g <= q)%Q ->
  (inject_Z k * 2 ^ g <= round_double q)%Q.
Proof.
  intros Hk Hg H.
  assert (Dlo : (2 ^ (52 + g) <= inject_Z k * 2 ^ g)%Q).
  { rewrite pow2_add. apply Qmult_le_compat_r;
      [|apply Qlt_le_weak, pow2_pos].
    rewrite <- pow2_Z, <- Zle_Qle; lia. }
  assert (Dhi : (inject_Z k * 2 ^ g <= 2 ^ (53 + g))%Q).
  { rewrite pow2_add. apply Qmult_le_compat_r;
      [|apply Qlt_le_weak, pow2_pos].
    rewrite <- pow2_Z, <- Zle_Qle; lia. }
  assert (Qpos : (0 < q)%Q).
  { eapply Qlt_le_trans; [apply (pow2_pos (52 + g))|].
    eapply Qle_trans; eauto. }
  assert (N0 : ~ (q == 0)%Q).
  { intros E. rewrite E in Qpos. discriminate. }
  rewrite (round_double_eq q N0).
  destruct (ilog2_abs q Qpos) as [Lo Up].
  assert (He : 52 + g <= ilog2 (Qabs q)).
  { assert (52 + g < ilog2 (Qabs q) + 1); [|lia].
    apply (Qpower_lt_compat_l_inv 2); [|reflexivity].
    eapply Qle_lt_trans; [|exact Up]. eapply Qle_trans; eauto. }
  assert (Eu : ulp_exp q = ilog2 (Qabs q) - 52) by (unfold ulp_exp; lia).
  set (u := ulp_exp q) in *. set (e := ilog2 (Qabs q)) in *.
  destruct (Z.eq_dec e (52 + g)) as [Ee|Ne].
  - assert (u = g) by lia. subst u. rewrite H0.
    apply Qmult_le_compat_r; [|apply Qlt_le_weak, pow2_pos].
    rewrite <- Zle_Qle. apply rint_ge.
    apply Qle_shift_div_l; [apply pow2_pos|exact H].
  - apply Qle_trans with (2 ^ e)%Q.
    + eapply Qle_trans; [exact Dhi|].
      apply Qpower_le_compat_l; [lia|discriminate].
    + replace e with (52 + u) at 1 by lia. rewrite pow2_add.
      apply Qmult_le_compat_r; [|apply Qlt_le_weak, pow2_pos].
      rewrite <- pow2_Z by lia. rewrite <- Zle_Qle. apply rint_ge.
      apply Qle_shift_div_l; [apply pow2_pos|].
      rewrite pow2_Z, <- pow2_add by lia.
      replace (52 + u) with e by lia. exact Lo.
Qed.

(** A double from 1 upwards is a multiple of [2 ^ -52]. *)
Lemma double_on_grid (q : Q) :
  (round_double q == q)%Q -> (1 <= q)%Q ->
  exists k, (q == inject_Z k * 2 ^ (-52))%Q.
Proof.
  intros R H.
  assert (Qpos : (0 < q)%Q) by (eapply Qlt_le_trans; [|exact H]; reflexivity).
  assert (N0 : ~ (q == 0)%Q).
  { intros E. rewrite E in Qpos. discriminate. }
  rewrite (round_double_eq q N0) in R.
  destruct (ilog2_abs q Qpos) as [_ Up].
  assert (He : 0 <= ilog2 (Qabs q)).
  { assert (0 < ilog2 (Qabs q) + 1); [|lia].
    apply (Qpower_lt_compat_l_inv 2); [|reflexivity].
    eapply Qle_lt_trans; [|exact Up]. exact H. }
  assert (Hu : -52 <= ulp_exp q) by (unfold ulp_exp; lia).
  set (u := ulp_exp q) in *.
  exists (rint (q / 2 ^ u) * 2 ^ (u - -52)).
  rewrite (unscale_Z _ u (-52)) by lia. now symmetry.
Qed.

Lemma reading_on_grid (t : Q) :
  reading t -> exists k, (t == inject_Z k * 2 ^ (-52))%Q.
Proof.
  intros [E|[H R]].
  - exists 0. rewrite E. reflexivity.
  - now apply double_on_grid.
Qed.

Lemma grid_lt (k m : Z) :
  (inject_Z k * 2 ^ (-52) < inject_Z m * 2 ^ (-52))%Q -> k < m.
Proof.
  intros H. destruct (Z_lt_le_dec k m) as [|L]; trivial. exfalso.
  rewrite Zle_Qle in L.
  apply (Qmult_le_compat_r _ _ (2 ^ (-52))) in L;
    [|apply Qlt_le_weak, pow2_pos].
  apply (Qlt_irrefl (inject_Z k * 2 ^ (-52))).
  eapply Qlt_le_trans; eauto.
Qed.

Lemma send_interval_grid :
  (SEND_INTERVAL == inject_Z 5404319552844595 * 2 ^ (-52))%Q.
Proof. vm_compute. reflexivity. Qed.

(** X3: the spacing sleep, in the arithmetic of the code.  When the
    clock at line 105 is at least the send interval past the last send,
    the dispatcher does not sleep for spacing, whatever the rounding.
    When both are clock readings, the clock has not gone back and less
    than the interval has passed, the two subtractions are exact and the
    dispatcher sleeps until the last send plus the interval. *)
Theorem send_worker_spacing env st msg rest :
  queue st = msg :: rest ->
  let elapsed := (t_wait env - last_send st)%Q in
  let backoff_sleep :=
    if 0 <? backoff st then [Sleep (inject_Z (backoff st))] else [] in
  ((SEND_INTERVAL <= elapsed)%Q ->
     send_worker_io env st = backoff_sleep ++ [Post (firstn 4000 msg)])
  /\ (reading (t_wait env) -> reading (last_send st) ->
      (0 <= elapsed)%Q -> (elapsed < SEND_INTERVAL)%Q ->
      exists d,
        send_worker_io env st
        = backoff_sleep ++ [Sleep d; Post (firstn 4000 msg)]
        /\ (t_wait env + d == last_send st + SEND_INTERVAL)%Q).
Proof.
  intros Hq elapsed backoff_sleep. unfold send_worker_io. rewrite Hq.
  fold backoff_sleep. cbv zeta.
  change (fsub (t_wait env) (last_send st)) with (round_double elapsed).
  split.
  - intros H.
    assert (F : (SEND_INTERVAL <= round_double elapsed)%Q).
    { rewrite send_interval_grid in *.
      apply round_ge_double; trivial; lia. }
    replace (Qltb 0 (fsub SEND_INTERVAL (round_double elapsed)))
      with false; [reflexivity|].
    symmetry. unfold Qltb. apply negb_false_iff, Qle_bool_iff.
    apply round_nonpos.
    apply (Qplus_le_l _ _ (round_double elapsed)). ring_simplify. exact F.
  - intros R1 R2 H0 H1.
    destruct (reading_on_grid _ R1) as [k1 E1].
    destruct (reading_on_grid _ R2) as [k2 E2].
    assert (E : (elapsed == inject_Z (k1 - k2) * 2 ^ (-52))%Q).
    { unfold elapsed. rewrite E1, E2.
      unfold Z.sub. rewrite inject_Z_plus, inject_Z_opp. ring. }
    assert (K0 : 0 <= k1 - k2).
    { assert (-1 < k1 - k2); [|lia]. apply grid_lt.
      eapply Qlt_le_trans; [|rewrite <- E; exact H0]. reflexivity. }
    assert (K1 : k1 - k2 < 5404319552844595).
    { apply grid_lt. rewrite <- E, <- send_interval_grid. exact H1. }
    assert (X1 : (round_double elapsed == elapsed)%Q).
    { apply (round_exact _ _ _ E); lia. }
    assert (X2 : (fsub SEND_INTERVAL (round_double elapsed)
                  == SEND_INTERVAL - elapsed)%Q).
    { unfold fsub. rewrite <- X1 at 2.
      apply (round_exact _ (5404319552844595 - (k1 - k2)) (-52)); [|lia|lia].
      rewrite X1, E, send_interval_grid.
      unfold Z.sub. rewrite !inject_Z_plus, !inject_Z_opp, inject_Z_plus.
      rewrite inject_Z_opp. ring. }
    exists (fsub SEND_INTERVAL (round_double elapsed)). split.
    + rewrite Qltb_true; [reflexivity|]. rewrite X2.
      apply (Qplus_lt_l _ _ elapsed). ring_simplify. exact H1.
    + rewrite X2. unfold elapsed. ring.
Qed.

(** ** Further properties: seen-set *)

Lemma seen_get_app_absent pid s1 s2 :
  seen_mem pid s1 = false -> seen_get pid (s1 ++ s2) = seen_get pid s2.
Proof.
  unfold seen_get, seen_mem.
  induction s1 as [|kv s1 IH]; simpl; trivial.
  destruct (text_eqb (fst kv) pid); [discriminate|]. exact IH.
Qed.

(** X4: the assignment [seen[pid] = now] and the lookup.  After it the
    timestamp stored under [pid] is [now]; the timestamps of the other
    keys are as before; a key already present keeps its place in the
    order, an absent one goes to the end; and the keys stay distinct. *)
Theorem seen_setitem_lookup pid now s :
  seen_get pid (seen_setitem pid now s) = Some now
  /\ (forall q, q <> pid ->
        seen_get q (seen_setitem pid now s) = seen_get q s)
  /\ (seen_mem pid s = true ->
        map fst (seen_setitem pid now s) = map fst s)
  /\ (seen_mem pid s = false ->
        seen_setitem pid now s = s ++ [(pid, now)])
  /\ (NoDup (map fst s) -> NoDup (map fst (seen_setitem pid now s))).
Proof.
  assert (Hkeys : seen_mem pid s = true ->
                  map fst (seen_setitem pid now s) = map fst s).
  { induction s as [|[k v] s IH]; simpl; [discriminate|].
    destruct (text_eqb k pid) eqn:E; simpl; [reflexivity|].
    intros H. now rewrite IH. }
  split; [|split; [|split; [|split]]]; trivial.
  - clear Hkeys. unfold seen_get. induction s as [|[k v] s IH]; simpl.
    + now rewrite text_eqb_refl.
    + destruct (text_eqb k pid) eqn:E; simpl; rewrite E; trivial.
  - clear Hkeys. intros q Hq. unfold seen_get.
    induction s as [|[k v] s IH]; simpl.
    + destruct (text_eqb pid q) eqn:E; trivial.
      apply text_eqb_eq in E. congruence.
    + destruct (text_eqb k pid) eqn:E; simpl.
      * apply text_eqb_eq in E. subst k.
        destruct (text_eqb pid q) eqn:E'; trivial.
        apply text_eqb_eq in E'. congruence.
      * destruct (text_eqb k q); trivial.
  - apply seen_setitem_absent.
  - intros Hnd. destruct (seen_mem pid s) eqn:Hm.
    + now rewrite Hkeys.
    + rewrite seen_setitem_absent, map_app by trivial. simpl.
      apply NoDup_app; [exact Hnd|repeat constructor; intros []|].
      intros x Hx [<-|[]].
      apply seen_mem_keys in Hx. congruence.
Qed.

(** ** Further properties: the whole loop *)

Lemma NoDup_skipn {A} n (l : list A) : NoDup l -> NoDup (skipn n l).
Proof.
  intros H. rewrite <- (firstn_skipn n l) in H.
  now apply NoDup_app_remove_l in H.
Qed.

Lemma seen_ok_record pid now s :
  seen_ok s -> seen_mem pid s = false ->
  seen_ok (prune (s ++ [(pid, now)])).
Proof.
  intros [Hnd _] Hm. split.
  - rewrite prune_keys. unfold lastn. apply NoDup_skipn.
    rewrite map_app. simpl.
    apply NoDup_app; [exact Hnd|repeat constructor; intros []|].
    intros x Hx [<-|[]]. apply seen_mem_keys in Hx. congruence.
  - rewrite prune_skipn, length_skipn. lia.
Qed.

Lemma process_entry_invariant now sub e st st' :
  process_entry now sub e st = Some st' -> invariant st -> invariant st'.
Proof.
  intros H [Hb Hs].
  destruct (process_entry_cases _ _ _ _ _ H)
    as [->|(pid & t & m & msg & _ & Hm & _ & _ & ->)]; [now split|].
  split; [exact Hb|]. cbn [seen set_seen]. now apply seen_ok_record.
Qed.

Lemma process_entries_invariant now sub es : forall st,
  invariant st -> invariant (process_entries now sub es st).
Proof.
  induction es as [|e es IH]; intros st Hi; simpl; trivial.
  destruct (process_entry now sub e st) as [st'|] eqn:E; trivial.
  apply IH. eapply process_entry_invariant; eauto.
Qed.

Lemma escalate_ok b : backoff_ok b -> backoff_ok (escalate b).
Proof.
  unfold backoff_ok, escalate, BACKOFF_START, BACKOFF_MAX.
  intros H. right. destruct (Z.eqb_spec b 0); lia.
Qed.

Lemma send_worker_invariant env st :
  invariant st -> invariant (send_worker env st).
Proof.
  intros [Hb Hs]. unfold send_worker.
  destruct (queue st) as [|m q]; [now split|].
  destruct (resp env) as [code|]; [destruct (code =? 429)|];
    (split; [|exact Hs]); cbn; try (now left); now apply escalate_ok.
Qed.

Lemma drain_invariant envs : forall st,
  invariant st -> invariant (drain envs st).
Proof.
  induction envs as [|env envs IH]; intros st Hi; simpl; trivial.
  destruct (queue st); trivial. now apply IH, send_worker_invariant.
Qed.

Lemma cycle_invariant now sources answers st :
  invariant st -> invariant (cycle now sources answers st).
Proof.
  intros Hi. unfold cycle. apply drain_invariant.
  assert (Hh : invariant (heartbeat now st)).
  { unfold heartbeat. destruct (Qltb _ _); [|exact Hi].
    destruct Hi. now split. }
  revert Hh. generalize (heartbeat now st).
  induction (combine SUBREDDITS sources) as [|x xs IH]; intros s Hs;
    simpl; trivial.
  apply IH. unfold visit. apply send_worker_invariant.
  unfold poll. destruct (feed_of (snd x)); trivial.
  now apply process_entries_invariant.
Qed.

(** X5: whatever the feeds return, the transport answers and the clock
    reads, after any number of iterations of the main loop the backoff
    delay is 0 or between 5 and 120, the seen-set has at most 3000
    entries and no fingerprint is in it twice. *)
Theorem main_loop_invariant (cs : list cycle_env) :
  let st := cycles cs startup in
  (backoff st = 0 \/ 5 <= backoff st <= 120)
  /\ NoDup (map fst (seen st))
  /\ (length (seen st) <= 3000)%nat.
Proof.
  assert (H : forall st, invariant st -> invariant (cycles cs st)).
  { induction cs as [|[[now sources] answers] cs IH]; intros st Hi;
      simpl; trivial.
    now apply IH, cycle_invariant. }
  destruct (H startup) as [Hb [Hn Hl]].
  - split; [now left|]. split; [constructor|simpl; lia].
  - simpl. auto.
Qed.

(** ** Further properties: poller *)

Lemma recorded_is_member pid now s :
  seen_mem pid (prune (s ++ [(pid, now)])) = true.
Proof.
  apply seen_mem_keys. rewrite prune_keys, map_app.
  apply lastn_last, MAX_SEEN_pos.
Qed.

(** X6: processing the same entry of the same source again, at any later
    clock reading, changes nothing: a recorded entry is skipped, an entry
    without match is without match again, and an entry on which the loop
    body raises makes it raise again. *)
Theorem reprocessing_changes_nothing now now' sub e st :
  step (now', sub, e) (step (now, sub, e) st) = step (now, sub, e) st.
Proof.
  assert (Hsame : forall s, process_entry now sub e st = Some s ->
                            process_entry now' sub e s = Some s).
  { unfold process_entry. intros s.
    destruct (post_id e) as [pid|] eqn:Hp; [|discriminate].
    destruct (seen_mem pid (seen st)) eqn:Hm.
    { intros [= <-]. now rewrite Hm. }
    destruct (safe (title e)) as [ti|] eqn:Ht; [|discriminate].
    destruct (safe (summary e)) as [su|] eqn:Hs; [|discriminate].
    destruct (keyword_regex_search (ti ++ [SPACE] ++ su)) as [m|] eqn:Hk.
    - destruct (format_msg _ _ _ _ _) as [msg|] eqn:Hf; [|discriminate].
      intros [= <-]. unfold prune_seen.
      cbn [seen set_seen enqueue set_queue].
      rewrite seen_setitem_absent by exact Hm.
      now rewrite recorded_is_member.
    - intros [= <-]. now rewrite Hm. }
  assert (Hnone : process_entry now sub e st = None ->
                  process_entry now' sub e st = None).
  { unfold process_entry.
    destruct (post_id e) as [pid|]; trivial.
    destruct (seen_mem pid (seen st)); [discriminate|].
    destruct (safe (title e)) as [ti|]; trivial.
    destruct (safe (summary e)) as [su|]; trivial.
    destruct (keyword_regex_search (ti ++ [SPACE] ++ su)) as [m|];
      [|discriminate].
    destruct (format_msg _ _ _ _ _) as [msg|]; [discriminate|trivial]. }
  unfold step.
  destruct (process_entry now sub e st) as [s|] eqn:E.
  - now rewrite (Hsame s eq_refl).
  - now rewrite (Hnone eq_refl).
Qed.

Lemma process_entry_frame now sub e st st' :
  process_entry now sub e st = Some st' ->
  backoff st' = backoff st /\ last_send st' = last_send st
  /\ last_heartbeat st' = last_heartbeat st
  /\ exists new, queue st' = queue st ++ new /\ (length new <= 1)%nat.
Proof.
  intros H.
  destruct (process_entry_cases _ _ _ _ _ H)
    as [->|(pid & t & m & msg & _ & _ & _ & _ & ->)].
  - repeat split. exists []. rewrite app_nil_r.
    split; [reflexivity|simpl; lia].
  - repeat split. exists [msg]. split; [reflexivity|simpl; lia].
Qed.

Lemma process_entries_frame now sub es : forall st,
  let st' := process_entries now sub es st in
  backoff st' = backoff st /\ last_send st' = last_send st
  /\ last_heartbeat st' = last_heartbeat st
  /\ exists new, queue st' = queue st ++ new
                 /\ (length new <= length es)%nat.
Proof.
  induction es as [|e es IH]; intros st; simpl.
  - repeat split. exists []. rewrite app_nil_r.
    split; [reflexivity|simpl; lia].
  - destruct (process_entry now sub e st) as [st1|] eqn:E.
    + destruct (process_entry_frame _ _ _ _ _ E)
        as (H1 & H2 & H3 & new1 & Hq1 & Hl1).
      destruct (IH st1) as (H4 & H5 & H6 & new2 & Hq2 & Hl2).
      repeat split; try congruence.
      exists (new1 ++ new2). rewrite Hq2, Hq1, <- app_assoc.
      split; trivial. rewrite length_app. lia.
    + repeat split. exists []. rewrite app_nil_r. split; trivial.
      simpl. lia.
Qed.

(** X7: polling one source only appends to the queue, at most 15 messages
    and at most one per entry of the feed; it leaves the backoff delay,
    the last-send time and the heartbeat timer alone; and the entries
    after the fifteenth play no part. *)
Theorem poll_appends_at_most_15 now sub feed st :
  let st' := poll now sub feed st in
  backoff st' = backoff st /\ last_send st' = last_send st
  /\ last_heartbeat st' = last_heartbeat st
  /\ (exists new, queue st' = queue st ++ new /\ (length new <= 15)%nat
                  /\ forall es, feed = Some es ->
                                (length new <= length es)%nat)
  /\ (forall es, feed = Some es ->
        st' = poll now sub (Some (firstn 15 es)) st).
Proof.
  unfold poll. destruct feed as [es|].
  - destruct (process_entries_frame now sub (firstn 15 es) st)
      as (H1 & H2 & H3 & new & Hq & Hl).
    rewrite length_firstn in Hl.
    repeat split; trivial.
    + exists new. repeat split; trivial; [lia|].
      intros es' [= <-]. lia.
    + intros es' [= <-]. now rewrite firstn_firstn.
  - repeat split; try discriminate.
    exists []. rewrite app_nil_r. repeat split; [simpl; lia|discriminate].
Qed.

(** ** Further properties: heartbeat and feed address *)

Lemma Qltb_false a b : (b <= a)%Q -> Qltb a b = false.
Proof.
  intros H. unfold Qltb. apply negb_false_iff, Qle_bool_iff, H.
Qed.

(** X8: the heartbeat cadence.  Once a heartbeat was queued at clock
    reading [now], a check at a reading not more than 1800 seconds later
    does nothing, and a check at a later reading queues the next heartbeat
    and takes that reading. *)
Theorem heartbeat_cadence now now' st :
  (HEARTBEAT_INTERVAL < now - last_heartbeat st)%Q ->
  let st1 := heartbeat now st in
  queue st1 = queue st ++ [HEARTBEAT_MSG]
  /\ last_heartbeat st1 = now
  /\ ((now' - now <= HEARTBEAT_INTERVAL)%Q -> heartbeat now' st1 = st1)
  /\ ((HEARTBEAT_INTERVAL < now' - now)%Q ->
      queue (heartbeat now' st1)
      = queue st ++ [HEARTBEAT_MSG; HEARTBEAT_MSG]
      /\ last_heartbeat (heartbeat now' st1) = now').
Proof.
  intros H st1.
  assert (E : st1 = set_last_heartbeat now (enqueue HEARTBEAT_MSG st)).
  { unfold st1, heartbeat. now rewrite Qltb_true. }
  rewrite E. repeat split.
  - intros H'. unfold heartbeat. cbn [last_heartbeat set_last_heartbeat].
    now rewrite Qltb_false.
  - unfold heartbeat. cbn [last_heartbeat set_last_heartbeat].
    rewrite Qltb_true by trivial. simpl. now rewrite <- app_assoc.
  - unfold heartbeat. cbn [last_heartbeat set_last_heartbeat].
    now rewrite Qltb_true.
Qed.

(** X9: two sources have the same feed address only if they have the same
    name, and the address has the name between the fixed prefix and
    suffix. *)
Theorem rss_url_injective a b :
  (rss_url a = rss_url b -> a = b)
  /\ length (rss_url a) = (length a + 34)%nat.
Proof.
  unfold rss_url. split.
  - intros H. apply app_inv_head in H. now apply app_inv_tail in H.
  - rewrite !length_app. simpl. lia.
Qed.

(** ** Further properties: sanitizer *)

Lemma escape_char_plain c : special_char c = false -> escape_char c = [c].
Proof.
  unfold special_char, markup_char, escape_char. intros H.
  apply orb_false_iff in H as [H1 H]. apply orb_false_iff in H as [H H5].
  apply orb_false_iff in H as [H H4]. apply orb_false_iff in H as [H2 H3].
  now rewrite H1, H2, H3, H4, H5.
Qed.

Lemma escape_char_cases c :
  escape_char c = [c] /\ special_char c = false
  \/ special_char c = true
     /\ In (escape_char c) [AMP_ENT; LT_ENT; GT_ENT; QUOT_ENT; APOS_ENT].
Proof.
  unfold special_char, markup_char, escape_char.
  destruct (c =? AMP); [right; simpl; tauto|].
  destruct (c =? LT); [right; simpl; tauto|].
  destruct (c =? GT); [right; simpl; tauto|].
  destruct (c =? QUOT); [right; simpl; tauto|].
  destruct (c =? APOS); [right; simpl; tauto|].
  now left.
Qed.

Lemma space_not_special c : is_space c = true -> special_char c = false.
Proof.
  unfold special_char, markup_char. intros H.
  destruct (Z.eqb_spec c AMP) as [->|]; [discriminate|].
  destruct (Z.eqb_spec c LT) as [->|]; [discriminate|].
  destruct (Z.eqb_spec c GT) as [->|]; [discriminate|].
  destruct (Z.eqb_spec c QUOT) as [->|]; [discriminate|].
  destruct (Z.eqb_spec c APOS) as [->|]; [discriminate|reflexivity].
Qed.

(** What [escape] writes for one character: never a raw markup character,
    whitespace only for whitespace, and at least one character. *)
Lemma escape_char_written c :
  Forall (fun d => markup_char d = false) (escape_char c)
  /\ (is_space c = false ->
      Forall (fun d => is_space d = false) (escape_char c))
  /\ escape_char c <> [].
Proof.
  destruct (escape_char_cases c) as [[-> Hs]|[_ Hin]].
  - split; [|split; [|discriminate]].
    + constructor; [|constructor]. unfold special_char in Hs.
      now apply orb_false_iff in Hs.
    + intros H. now repeat constructor.
  - simpl in Hin.
    destruct Hin as [<-|[<-|[<-|[<-|[<-|[]]]]]];
      (split; [|split; [|discriminate]]); try intros _;
      repeat constructor.
Qed.

Lemma escape_no_markup z : Forall (fun d => markup_char d = false) (escape z).
Proof.
  induction z as [|c z IH]; [constructor|].
  rewrite escape_cons. apply Forall_app. split; trivial.
  apply escape_char_written.
Qed.

(** X10: what [safe] returns contains no [<], no [>] and no quote, and it
    is the escaped form of a text without tags that [unescape] gives
    back: a reader of the markup sees that text and no markup. *)
Theorem safe_output_is_escaped x y :
  safe x = Some y ->
  Forall (fun c => c <> LT /\ c <> GT /\ c <> QUOT /\ c <> APOS) y
  /\ exists z, y = escape z /\ unescape y = Some z /\ quiet tag z.
Proof.
  intros H.
  assert (Hz : exists z, y = escape z /\ quiet tag z).
  { destruct x as [|c t].
    - injection H as <-. exists []. now split.
    - rewrite safe_cons in H.
      destruct (unescape (c :: t)) as [u|]; [|discriminate].
      injection H as <-. exists (cleaned u). split; trivial.
      apply quiet_tag_strip, quiet_tag_spaces, quiet_tag_re_sub. }
  destruct Hz as (z & -> & Hq). split.
  - eapply Forall_impl; [|apply escape_no_markup].
    intros c Hc. unfold markup_char in Hc.
    repeat (apply orb_false_iff in Hc as [? Hc]).
    repeat split; intros ->; discriminate.
  - exists z. repeat split; trivial. apply unescape_escape.
Qed.

Lemma tidy_app_nonspace l r :
  Forall (fun d => is_space d = false) l -> tidy r -> tidy (l ++ r).
Proof.
  induction 1 as [|c l Hc _ IH]; intros Hr; [exact Hr|].
  cbn [app tidy]. split; [congruence|auto].
Qed.

Lemma escape_head c t :
  is_space c = false ->
  match escape (c :: t) with [] => True | d :: _ => is_space d = false end.
Proof.
  intros H. rewrite escape_cons.
  destruct (escape_char_written c) as (_ & Hs & Hne).
  specialize (Hs H). destruct (escape_char c) as [|d r]; [congruence|].
  now inversion Hs.
Qed.

Lemma tidy_escape z : tidy z -> tidy (escape z).
Proof.
  induction z as [|c t IH]; [trivial|]. intros [Hc Ht].
  destruct (is_space c) eqn:E.
  - destruct (Hc eq_refl) as [-> Hn]. rewrite escape_cons.
    change (escape_char SPACE) with [SPACE]. cbn [app tidy].
    split; [|auto]. intros _. split; trivial.
    destruct t as [|d t']; [exact I|]. now apply escape_head.
  - rewrite escape_cons. apply tidy_app_nonspace; [|auto].
    now apply escape_char_written.
Qed.

Lemma ends_ok_strip w : ends_ok (strip w).
Proof.
  split.
  - apply rstrip_head, drop_while_head.
  - unfold strip, rstrip. rewrite rev_involutive. apply drop_while_head.
Qed.

Lemma ends_ok_fixed s : ends_ok s -> strip s = s.
Proof.
  intros [Hh Hl]. unfold strip, lstrip, rstrip.
  rewrite (drop_while_fixed _ s Hh), (drop_while_fixed _ (rev s) Hl).
  apply rev_involutive.
Qed.

Lemma ends_ok_escape z : ends_ok z -> ends_ok (escape z).
Proof.
  intros [Hh Hl]. split.
  - destruct z as [|c t]; [exact I|]. now apply escape_head.
  - destruct (rev z) as [|c r] eqn:E.
    + apply (f_equal (@rev _)) in E. rewrite rev_involutive in E.
      now subst z.
    + apply (f_equal (@rev _)) in E. rewrite rev_involutive in E.
      subst z. cbn [rev]. rewrite escape_app, escape_one, rev_app_distr.
      destruct (escape_char_written c) as (_ & Hs & Hne).
      specialize (Hs Hl). apply Forall_rev in Hs.
      destruct (rev (escape_char c)) as [|d r'] eqn:E'.
      * apply (f_equal (@rev _)) in E'. rewrite rev_involutive in E'.
        contradiction.
      * now inversion Hs.
Qed.

(** X11: what [safe] returns has its whitespace in normal form: the only
    whitespace character in it is the space, no space follows another,
    and there is none at either end; [strip] leaves it as it is. *)
Theorem safe_output_whitespace x y :
  safe x = Some y -> tidy y /\ ends_ok y /\ strip y = y.
Proof.
  intros H.
  assert (Hy : tidy y /\ ends_ok y).
  { destruct x as [|c t].
    - injection H as <-. repeat split.
    - rewrite safe_cons in H.
      destruct (unescape (c :: t)) as [u|]; [|discriminate].
      injection H as <-. split.
      + apply tidy_escape, tidy_strip, tidy_re_sub_spaces.
      + apply ends_ok_escape, ends_ok_strip. }
  destruct Hy as [Ht He]. repeat split; try apply He; trivial.
  now apply ends_ok_fixed.
Qed.

Lemma quiet_tag_no_lt s : ~ In LT s -> quiet tag s.
Proof.
  induction s as [|c t IH]; intros H; [exact I|]. split.
  - apply tag_none. intros ->. exfalso. apply H. now left.
  - apply IH. intros Hin. apply H. now right.
Qed.

Lemma escape_plain s :
  Forall (fun c => special_char c = false) s -> escape s = s.
Proof.
  induction 1 as [|c s Hc _ IH]; [reflexivity|].
  now rewrite escape_cons, escape_char_plain, IH.
Qed.

Lemma plain_no_char s d :
  special_char d = true ->
  Forall (fun c => special_char c = false) s -> ~ In d s.
Proof.
  intros Hd Hs Hin. rewrite Forall_forall in Hs.
  specialize (Hs d Hin). congruence.
Qed.

(** X12: a text without [&], [<], [>] and quotes whose whitespace is in
    normal form is returned as it is. *)
Theorem safe_plain_text x :
  Forall (fun c => special_char c = false) x ->
  tidy x -> ends_ok x ->
  safe x = Some x.
Proof.
  intros Hp Ht He. destruct x as [|c t]; [reflexivity|].
  rewrite safe_cons. unfold unescape.
  replace (existsb (Z.eqb AMP) (c :: t)) with false.
  - cbv beta iota. cbn [negb]. unfold cleaned.
    rewrite (re_sub_quiet tag (c :: t))
      by (apply quiet_tag_no_lt, (plain_no_char _ LT eq_refl Hp)).
    now rewrite tidy_fixed, ends_ok_fixed, escape_plain.
  - symmetry. apply not_true_iff_false. intros H.
    apply existsb_exists in H as (d & Hin & Hd).
    apply Z.eqb_eq in Hd. subst d.
    exact (plain_no_char _ AMP eq_refl Hp Hin).
Qed.

Lemma drop_while_all p s :
  Forall (fun c => p c = true) s -> drop_while p s = [].
Proof. induction 1 as [|c s Hc _ IH]; simpl; [|rewrite Hc]; trivial. Qed.

(** X13: a text made of whitespace only is returned as the empty text. *)
Theorem safe_whitespace_only x :
  Forall (fun c => is_space c = true) x -> safe x = Some [].
Proof.
  intros Hs. destruct x as [|c t]; [reflexivity|].
  assert (Hp : Forall (fun c => special_char c = false) (c :: t)).
  { eapply Forall_impl; [|exact Hs]. apply space_not_special. }
  rewrite safe_cons. unfold unescape.
  replace (existsb (Z.eqb AMP) (c :: t)) with false.
  - cbv beta iota. cbn [negb]. unfold cleaned.
    rewrite (re_sub_quiet tag (c :: t))
      by (apply quiet_tag_no_lt, (plain_no_char _ LT eq_refl Hp)).
    inversion Hs as [|? ? Hc Ht]; subst.
    rewrite re_sub_spaces_space, drop_while_all by trivial.
    reflexivity.
  - symmetry. apply not_true_iff_false. intros H.
    apply existsb_exists in H as (d & Hin & Hd).
    apply Z.eqb_eq in Hd. subst d.
    exact (plain_no_char _ AMP eq_refl Hp Hin).
Qed.

(** ** Further properties: fingerprint *)

Lemma utf8_char_none c : utf8_char c = None <-> is_scalar c = false.
Proof.
  unfold utf8_char, is_scalar, in_range.
  destruct (Z.ltb_spec c 0), (Z.leb_spec 0 c); try lia;
    [split; trivial|].
  destruct (Z.ltb_spec c 0x80), (Z.ltb_spec c 0x800),
    (Z.ltb_spec c 0x10000), (Z.leb_spec c 0x10FFFF),
    (Z.leb_spec 0xD800 c), (Z.leb_spec c 0xDFFF);
    try lia; simpl; split; trivial; discriminate.
Qed.

Lemma encode_none s :
  encode s = None <-> Exists (fun c => is_scalar c = false) s.
Proof.
  induction s as [|c s IH]; simpl.
  - split; [discriminate|]. intros H. inversion H.
  - destruct (utf8_char c) as [b|] eqn:E.
    + assert (Hc : is_scalar c <> false).
      { intros H. apply utf8_char_none in H. congruence. }
      destruct (encode s) as [bs|].
      * split; [discriminate|]. intros H.
        inversion H; subst; [contradiction|].
        apply IH in H1. discriminate.
      * split; trivial. intros _. right. now apply IH.
    + split; trivial. intros _. left. now apply utf8_char_none.
Qed.

(** X14: the fingerprint cannot be computed (the encoding raises) exactly
    when the id or the link contains a code point UTF-8 cannot encode, a
    surrogate; otherwise [post_id] returns a value. *)
Theorem post_id_raises_on_surrogates (e : entry) :
  (post_id e = None
   <-> Exists (fun c => is_scalar c = false) (id e ++ link e))
  /\ (Forall (fun c => is_scalar c = true) (id e ++ link e) ->
      exists fp, post_id e = Some fp).
Proof.
  unfold post_id. split.
  - rewrite <- encode_none.
    destruct (encode (id e ++ link e)); simpl; split; congruence.
  - intros H. destruct (encode (id e ++ link e)) as [b|] eqn:E.
    + simpl. eauto.
    + apply encode_none in E. apply Exists_exists in E as (c & Hin & Hc).
      rewrite Forall_forall in H. specialize (H c Hin). congruence.
Qed.

Lemma hex_of_byte b :
  0 <= b < 256 ->
  is_hex_lower (Sha256.hex_digit (Z.shiftr b 4))
  && is_hex_lower (Sha256.hex_digit (Z.land b 15)) = true.
Proof.
  apply (below_all 256
           (fun b => is_hex_lower (Sha256.hex_digit (Z.shiftr b 4))
                     && is_hex_lower (Sha256.hex_digit (Z.land b 15)))).
  vm_compute. reflexivity.
Qed.

(** X15: whenever the fingerprint can be computed it is a string of 64
    characters, each of them one of 0-9 and a-f. *)
Theorem post_id_is_64_hex_digits (e : entry) fp :
  post_id e = Some fp ->
  length fp = 64%nat /\ forallb is_hex_lower fp = true.
Proof.
  unfold post_id. destruct (encode (id e ++ link e)) as [b|];
    [|discriminate].
  intros [= <-]. unfold Sha256.hexdigest.
  destruct (digest_bytes b) as [Hl Hb].
  revert Hl Hb. generalize (Sha256.digest b) as d. intros d Hl Hb.
  assert (H : length (flat_map
                (fun b => [Sha256.hex_digit (Z.shiftr b 4);
                           Sha256.hex_digit (Z.land b 15)]) d)
              = (2 * length d)%nat
              /\ forallb is_hex_lower
                   (flat_map
                      (fun b => [Sha256.hex_digit (Z.shiftr b 4);
                                 Sha256.hex_digit (Z.land b 15)]) d)
                 = true).
  { clear Hl. induction Hb as [|x d Hx _ IH]; [split; reflexivity|].
    destruct IH as [IH1 IH2]. cbn [flat_map app length forallb]. split.
    - rewrite IH1. lia.
    - rewrite IH2, andb_true_r. now apply hex_of_byte. }
  destruct H as [H1 H2]. split; trivial. rewrite H1, Hl. reflexivity.
Qed.

(** ** Further properties: matcher *)

Lemma keywords_chars : forallb (forallb keyword_char) KEYWORDS = true.
Proof. vm_compute. reflexivity. Qed.

Ltac split_comparisons :=
  repeat match goal with
         | |- context [?a =? ?b] =>
             destruct (Z.eqb_spec a b); try (exfalso; lia)
         | |- context [?a <=? ?b] =>
             destruct (Z.leb_spec a b); try (exfalso; lia)
         | |- context [?a <? ?b] =>
             destruct (Z.ltb_spec a b); try (exfalso; lia)
         end.

Lemma is_word_ascii_case c :
  is_word (ascii_upper c) = is_word c /\ is_word (ascii_lower c) = is_word c.
Proof.
  unfold is_word, ascii_upper, ascii_lower, in_range, folding_letters,
    existsb.
  split.
  - destruct (Z.leb_spec 97 c), (Z.leb_spec c 122); cbn [andb];
      cbv iota; split_comparisons; reflexivity.
  - destruct (Z.leb_spec 65 c), (Z.leb_spec c 90); cbn [andb];
      cbv iota; split_comparisons; reflexivity.
Qed.

Lemma ci_char_ascii_case p c :
  keyword_char p = true ->
  ci_char p (ascii_upper c) = ci_char p c
  /\ ci_char p (ascii_lower c) = ci_char p c.
Proof.
  unfold keyword_char, is_lower, SPACE, ci_char, ascii_upper, ascii_lower,
    in_range.
  intros Hkw. split.
  - destruct (Z.leb_spec 97 c), (Z.leb_spec c 122); cbn [andb];
      cbv iota; revert Hkw; split_comparisons; intros Hkw;
      first [reflexivity|discriminate Hkw].
  - destruct (Z.leb_spec 65 c), (Z.leb_spec c 90); cbn [andb];
      cbv iota; revert Hkw; split_comparisons; intros Hkw;
      first [reflexivity|discriminate Hkw].
Qed.

Lemma word_boundary_map f a b :
  unseen f ->
  word_boundary (option_map f a) (option_map f b) = word_boundary a b.
Proof.
  intros [Hw _]. unfold word_boundary.
  destruct a, b; simpl; now rewrite ?Hw.
Qed.

Lemma hd_error_map {A B} (f : A -> B) l :
  hd_error (map f l) = option_map f (hd_error l).
Proof. now destruct l. Qed.

Lemma literal_map f kw :
  unseen f -> forallb keyword_char kw = true ->
  forall prev s,
    literal (option_map f prev) kw (map f s)
    = option_map (fun lr => (option_map f (fst lr), map f (snd lr)))
                 (literal prev kw s).
Proof.
  intros Hf. induction kw as [|p kw IH]; intros Hk prev s; [reflexivity|].
  cbn [forallb] in Hk. apply andb_true_iff in Hk as [Hp Hk].
  destruct s as [|c s]; [reflexivity|].
  cbn [literal map]. rewrite (proj2 Hf p c Hp).
  destruct (ci_char p c); [|reflexivity].
  exact (IH Hk (Some c) s).
Qed.

Lemma alternatives_map f kws :
  unseen f -> forallb (forallb keyword_char) kws = true ->
  forall prev i s,
    alternatives (option_map f prev) kws i (map f s)
    = alternatives prev kws i s.
Proof.
  intros Hf. induction kws as [|kw kws IH]; intros Hk prev i s;
    [reflexivity|].
  cbn [forallb] in Hk. apply andb_true_iff in Hk as [Hkw Hk].
  cbn [alternatives]. rewrite (literal_map f kw Hf Hkw).
  destruct (literal prev kw s) as [[l rest]|]; cbn [option_map fst snd].
  - rewrite hd_error_map, (word_boundary_map f _ _ Hf).
    destruct (word_boundary l (hd_error rest)); [reflexivity|].
    now apply IH.
  - now apply IH.
Qed.

Lemma match_at_map f kws :
  unseen f -> forallb (forallb keyword_char) kws = true ->
  forall prev s,
    match_at kws (option_map f prev) (map f s) = match_at kws prev s.
Proof.
  intros Hf Hk prev s. unfold match_at.
  now rewrite hd_error_map, (word_boundary_map f _ _ Hf),
    (alternatives_map f kws Hf Hk).
Qed.

Lemma search_from_map f kws :
  unseen f -> forallb (forallb keyword_char) kws = true ->
  forall s pos prev,
    search_from kws pos (option_map f prev) (map f s)
    = search_from kws pos prev s.
Proof.
  intros Hf Hk. induction s as [|c s IH]; intros pos prev.
  - pose proof (match_at_map f kws Hf Hk prev []) as E. cbn [map] in E.
    cbn [map search_from]. now rewrite E.
  - pose proof (match_at_map f kws Hf Hk prev (c :: s)) as E.
    cbn [map] in E. cbn [map search_from]. rewrite E.
    destruct (match_at kws prev (c :: s)); trivial.
    exact (IH (S pos) (Some c)).
Qed.

(** X16: the search does not see the case of ASCII letters: writing the
    text in upper case, or in lower case, gives the same position and the
    same keyword, or no match as before. *)
Theorem search_ignores_ascii_case (t : text) :
  keyword_regex_search (map ascii_upper t) = keyword_regex_search t
  /\ keyword_regex_search (map ascii_lower t) = keyword_regex_search t.
Proof.
  assert (Hu : unseen ascii_upper).
  { split; [intros c; apply is_word_ascii_case|].
    intros p c Hp. now apply ci_char_ascii_case. }
  assert (Hl : unseen ascii_lower).
  { split; [intros c; apply is_word_ascii_case|].
    intros p c Hp. now apply ci_char_ascii_case. }
  unfold keyword_regex_search. split.
  - exact (search_from_map ascii_upper KEYWORDS Hu keywords_chars t 0%nat
             None).
  - exact (search_from_map ascii_lower KEYWORDS Hl keywords_chars t 0%nat
             None).
Qed.

(** ** Further properties: when the loop body raises *)

Lemma safe_no_amp x : ~ In AMP x -> exists y, safe x = Some y.
Proof.
  intros H. destruct x as [|c t]; [now exists []|].
  rewrite safe_cons. unfold unescape.
  replace (existsb (Z.eqb AMP) (c :: t)) with false; [simpl; eauto|].
  symmetry. apply not_true_iff_false. intros E.
  apply existsb_exists in E as (d & Hin & Hd).
  apply Z.eqb_eq in Hd. now subst d.
Qed.

Lemma safe_none_long x :
  safe x = None -> (0 < int_max_str_digits < length x)%nat.
Proof.
  destruct x as [|c t]; [discriminate|]. rewrite safe_cons.
  destruct (unescape (c :: t)) eqn:E; [discriminate|].
  intros _. now apply unescape_none.
Qed.

Lemma ci_char_not_amp p c :
  keyword_char p = true -> ci_char p c = true -> c <> AMP.
Proof.
  intros Hk Hc ->. revert Hk Hc.
  unfold keyword_char, is_lower, ci_char, in_range, SPACE, AMP.
  split_comparisons; simpl; congruence.
Qed.

Lemma group1_of_search t p i :
  keyword_regex_search t = Some (p, i) ->
  exists kw, In kw KEYWORDS /\ ci_equal kw (group1 t (p, i)).
Proof.
  intros H. apply (search_from_some KEYWORDS t []) in H as [Ho _].
  destruct Ho as (kw & pre & mid & post & Hn & Ht & <- & Hm & _).
  simpl in Ht. subst t. exists kw. split; [eapply nth_error_In; eauto|].
  unfold group1. cbn [fst snd].
  rewrite (nth_error_nth _ _ _ Hn), skipn_length_app.
  unfold ci_equal in Hm. rewrite (Forall2_length Hm).
  now rewrite firstn_length_app.
Qed.

Lemma ci_equal_no_amp kw mid :
  forallb keyword_char kw = true -> ci_equal kw mid -> ~ In AMP mid.
Proof.
  unfold ci_equal. intros Hk Hm. revert Hk.
  induction Hm as [|a c kw mid Hac _ IH]; intros Hk.
  - intros [].
  - cbn [forallb] in Hk. apply andb_true_iff in Hk as [Ha Hk].
    intros [->|Hin].
    + now apply (ci_char_not_amp a AMP).
    + now apply IH.
Qed.

Lemma group1_no_amp t p i :
  keyword_regex_search t = Some (p, i) -> ~ In AMP (group1 t (p, i)).
Proof.
  intros H. destruct (group1_of_search _ _ _ H) as (kw & Hin & Hm).
  pose proof keywords_chars as Hk. rewrite forallb_forall in Hk.
  exact (ci_equal_no_amp kw _ (Hk kw Hin) Hm).
Qed.

(** X17: the body of the entry loop raises only where the fingerprint or
    the sanitizing of the title or of the summary raises: the message is
    always built for a source name without [&], as all configured names
    are.  So it raises only on an entry with a surrogate in its id or
    link, or with a title or summary longer than the interpreter's limit
    on integer digits. *)
Theorem process_entry_raises_only now sub e st :
  ~ In AMP sub ->
  process_entry now sub e st = None ->
  (post_id e = None \/ safe (title e) = None \/ safe (summary e) = None)
  /\ (Exists (fun c => is_scalar c = false) (id e ++ link e)
      \/ (0 < int_max_str_digits < length (title e))%nat
      \/ (0 < int_max_str_digits < length (summary e))%nat)
  /\ Forall (fun s => ~ In AMP s) SUBREDDITS.
Proof.
  intros Hsub H.
  assert (H1 : post_id e = None \/ safe (title e) = None
               \/ safe (summary e) = None).
  { unfold process_entry in H.
    destruct (post_id e) as [pid|]; [|now left].
    destruct (seen_mem pid (seen st)); [discriminate|].
    destruct (safe (title e)) as [ti|]; [|now right; left].
    destruct (safe (summary e)) as [su|]; [|now right; right].
    exfalso.
    destruct (keyword_regex_search (ti ++ [SPACE] ++ su)) as [[p i]|]
      eqn:Hk; [|discriminate].
    unfold format_msg in H.
    destruct (safe_no_amp _ (group1_no_amp _ _ _ Hk)) as (k & Ek).
    destruct (safe_no_amp _ Hsub) as (s & Es).
    rewrite Ek, Es in H. discriminate. }
  split; [exact H1|]. split.
  - destruct H1 as [Hp|[Ht|Hs]].
    + left. unfold post_id in Hp. apply encode_none.
      destruct (encode (id e ++ link e)); [discriminate|reflexivity].
    + right. left. now apply safe_none_long.
    + right. right. now apply safe_none_long.
  - repeat constructor; intros Hin; simpl in Hin;
      repeat (destruct Hin as [Hin|Hin]; [discriminate Hin|]);
      exact Hin.
Qed.

End Bot.

(** ** The library models on known values

    The expected values are what the standard library returns. *)

Example sha256_abc :
  Sha256.hexdigest (str "abc")
  = str "ba7816bf8f01cfea414140de5dae2223b00361a396177a9cb410ff61f20015ad".
Proof. vm_compute. reflexivity. Qed.

Example sha256_empty :
  Sha256.hexdigest []
  = str "e3b0c44298fc1c149afbf4c8996fb92427ae41e4649b934ca495991b7852b855".
Proof. vm_compute. reflexivity. Qed.

(** [1.2 - 0.1] is [1.0999999999999999], not the exact difference;
    [1.2 - 1e-20] is [1.2]. *)
Example fsub_rounds :
  SEND_INTERVAL = 5404319552844595 # 4503599627370496
  /\ Qred (fsub SEND_INTERVAL (3602879701896397 # 36028797018963968))
     = 4953959590107545 # 4503599627370496
  /\ ~ (SEND_INTERVAL - (3602879701896397 # 36028797018963968)
        == 4953959590107545 # 4503599627370496)%Q
  /\ Qred (fsub SEND_INTERVAL tiny_reading) = SEND_INTERVAL.
Proof. repeat split; try discriminate; vm_compute; reflexivity. Qed.

(** No spacing sleep when the clock reads [1.2] and nothing was sent
    before; none either when the last send was at [1e-20], where the
    interval has not quite passed but the subtraction gives [1.2]. *)
Example spacing_on_the_edge :
  send_worker_io (mkSendEnv SEND_INTERVAL (Status 200) (2 # 1)) sent_never
  = [Post (str "first")]
  /\ (SEND_INTERVAL - tiny_reading < SEND_INTERVAL)%Q
  /\ send_worker_io (mkSendEnv SEND_INTERVAL (Status 200) (2 # 1))
       (set_last_send tiny_reading sent_never)
     = [Post (str "first")].
Proof. repeat split; vm_compute; reflexivity. Qed.

Example encode_multibyte :
  encode [0xe9; 0x20ac; 0x1f680]
  = Some [195; 169; 226; 130; 172; 240; 159; 154; 128]
  /\ encode [0xd800] = None.
Proof. vm_compute. split; reflexivity. Qed.

Example post_id_wallet :
  post_id wallet_entry
  = Some
      (str "953ff6adf3333006beab591c51746ebc735f4be7e6868960db66b9b524e8ba26").
Proof. vm_compute. reflexivity. Qed.

Example unescape_references :
  unescape only_listed 4300
    (str "&#x27;&#39&#xZ;&#;&amp&ampx;&#65536;&#1114112;&#x80;&#11;&#x0;&#x;")
  = Some ([39; 39] ++ str "&#xZ;&#;&&x;" ++ [65536; 65533; 8364; 65533]
          ++ str "&#x;").
Proof. vm_compute. reflexivity. Qed.

Example safe_markup :
  safe only_listed 4300
    (str "  <b>Hello</b>  &lt;world&gt; &amp;amp; it's <>" ++ [9; 10]
     ++ str " a < b  x ")
  = Some (str "Hello &amp;amp; it&#x27;s &lt;&gt; a &lt; b x").
Proof. vm_compute. reflexivity. Qed.

Example search_wallet_locked :
  keyword_regex_search ascii_words (str "Wallet locked after KYC ")
  = Some (0, 22)%nat
  /\ keyword_regex_search ascii_words (str "not workings, seed-phrase: kyc")
     = Some (27, 16)%nat.
Proof. vm_compute. split; reflexivity. Qed.

Example process_wallet_entry :
  option_map (fun st => (queue st, seen st))
    (process_entry only_listed 4300 ascii_words (9 # 1) (str "Bitcoin")
       wallet_entry initial)
  = Some ([ [0x1F514] ++ str " <b>Keyword:</b> Wallet" ++ [NL]
            ++ str "<b>Subreddit:</b> r/Bitcoin" ++ [NL]
            ++ str "<b>Title:</b> Wallet locked after KYC" ++ [NL]
            ++ str "<b>Snippet:</b> " ++ [NL]
            ++ str "<b>Link:</b> http://x" ],
          [(Sha256.hexdigest (str "t1http://x"), 9 # 1)]).
Proof. vm_compute. reflexivity. Qed.

(** ** The statements on the sample inputs *)

Lemma failed_send_keeps_order_witness :
  queue two_queued = [str "first"; str "second"]
  /\ failed (resp rate_limited) = true
  /\ queue (send_worker rate_limited two_queued)
     = [str "first"; str "second"]
  /\ snd (run [Consume delivered; Produce (str "third"); Consume delivered]
              (send_worker rate_limited two_queued))
     = [str "first"; str "second"].
Proof.
  split; [reflexivity|]. split; [reflexivity|].
  pose proof (failed_send_keeps_order rate_limited two_queued
                (str "first") (str "second") []
                [Consume delivered; Produce (str "third"); Consume delivered]
                eq_refl eq_refl) as H.
  split; [exact (proj1 H)|reflexivity].
Defined.

Lemma backoff_escalates_and_resets_witness :
  backoff (drain [rate_limited; timed_out; rate_limited] two_queued) = 20
  /\ backoff (drain [rate_limited; rate_limited; rate_limited; timed_out;
                     timed_out; timed_out] two_queued) = 120
  /\ backoff (send_worker delivered
                (drain [rate_limited; timed_out; rate_limited] two_queued)) = 0.
Proof.
  assert (Hq : queue two_queued <> []) by discriminate.
  pose proof (backoff_escalates_and_resets 3
                [rate_limited; timed_out; rate_limited] delivered
                two_queued two_queued Hq eq_refl eq_refl
                (le_S _ _ (le_S _ _ (le_n 1)))
                ltac:(repeat constructor) Hq eq_refl) as H3.
  pose proof (backoff_escalates_and_resets 6
                [rate_limited; rate_limited; rate_limited; timed_out;
                 timed_out; timed_out] delivered
                two_queued two_queued Hq eq_refl eq_refl
                ltac:(repeat constructor)
                ltac:(repeat constructor) Hq eq_refl) as H6.
  split; [exact (proj1 H3)|]. split; [exact (proj1 H6)|].
  exact (proj1 (proj2 H3)).
Defined.

Lemma response_consumes_or_requeues_witness :
  (queue (send_worker rejected two_queued) = [str "second"]
   /\ backoff (send_worker rejected two_queued) = 0
   /\ last_send (send_worker rejected two_queued) = 101 # 1)
  /\ (queue (send_worker rate_limited two_queued)
      = [str "first"; str "second"]
      /\ last_send (send_worker rate_limited two_queued) = 0%Q
      /\ backoff (send_worker rate_limited two_queued) = 5).
Proof.
  split.
  - apply (proj1 (response_consumes_or_requeues rejected two_queued
                    (str "first") [str "second"] 400 eq_refl eq_refl)).
    discriminate.
  - apply (proj2 (response_consumes_or_requeues rate_limited two_queued
                    (str "first") [str "second"] 429 eq_refl eq_refl)).
    reflexivity.
Defined.

Lemma first_cycle_heartbeat_witness :
  (HEARTBEAT_INTERVAL < 1793750400 # 1)%Q
  /\ queue (heartbeat (1793750400 # 1) startup)
     = [STARTUP_MSG; HEARTBEAT_MSG]
  /\ last_heartbeat (heartbeat (1793750400 # 1) startup) = 1793750400 # 1.
Proof.
  split; [reflexivity|].
  exact (proj2 (proj2 (first_cycle_heartbeat (1793750400 # 1) eq_refl))).
Defined.

Lemma first_seen_timestamp_kept_witness :
  seen_get (Sha256.hexdigest (str "t1http://x")) (seen wallet_seen)
  = Some (5 # 1)
  /\ process_entry only_listed 4300 ascii_words (9 # 1) (str "Bitcoin")
       wallet_entry wallet_seen = Some wallet_seen
  /\ seen_get (Sha256.hexdigest (str "t1http://x"))
       (seen (step only_listed 4300 ascii_words
                (9 # 1, str "Bitcoin", wallet_entry) wallet_seen))
     = Some (5 # 1).
Proof.
  split; [vm_compute; reflexivity|].
  apply (first_seen_timestamp_kept only_listed 4300 ascii_words).
  - vm_compute. reflexivity.
  - vm_compute. reflexivity.
Defined.

Lemma unmatched_entries_not_recorded_witness :
  entry_text only_listed 4300 chat_entry
  = Some (str "Good morning nice &amp; sunny")
  /\ keyword_regex_search ascii_words (str "Good morning nice &amp; sunny")
     = None
  /\ process_entries only_listed 4300 ascii_words (9 # 1) (str "Bitcoin")
       [chat_entry] wallet_seen = wallet_seen.
Proof.
  split; [vm_compute; reflexivity|]. split; [vm_compute; reflexivity|].
  apply (proj1 (unmatched_entries_not_recorded only_listed 4300 ascii_words
                  (9 # 1) (str "Bitcoin") [chat_entry] wallet_seen)).
  constructor; [|constructor].
  intros t H. vm_compute in H. injection H as <-. vm_compute. reflexivity.
Defined.

Lemma keyword_search_earliest_whole_word_witness :
  keyword_regex_search ascii_words (str "my wallet is gone")
  = Some (3, 22)%nat
  /\ exists kw pre post,
       nth_error KEYWORDS 22 = Some kw
       /\ str "my wallet is gone"
          = pre ++ group1 (str "my wallet is gone") (3, 22)%nat ++ post
       /\ length pre = 3%nat
       /\ ci_equal kw (group1 (str "my wallet is gone") (3, 22)%nat)
       /\ opt_word ascii_words (last_char pre) = false
       /\ opt_word ascii_words (hd_error post) = false.
Proof.
  split; [vm_compute; reflexivity|].
  apply (proj1 (proj2 (proj2 (keyword_search_earliest_whole_word ascii_words
                                (str "my wallet is gone"))))).
  vm_compute. reflexivity.
Defined.

Lemma safe_idempotent_witness :
  (y <- safe only_listed 4300 (str "  <b>Tom &amp;  Jerry</b> ") ;;
   safe only_listed 4300 y)
  = Some (str "Tom &amp; Jerry")
  /\ safe only_listed 4300 (str "&#" ++ repeat 49%Z 4301) = None
  /\ (0 < 4300 < length (str "&#" ++ repeat 49%Z 4301))%nat.
Proof.
  split.
  - rewrite (proj1 (safe_idempotent only_listed 4300
                      (str "  <b>Tom &amp;  Jerry</b> "))).
    vm_compute. reflexivity.
  - split; [vm_compute; reflexivity|].
    apply (proj2 (safe_idempotent only_listed 4300
                    (str "&#" ++ repeat 49%Z 4301))).
    vm_compute. reflexivity.
Defined.

Lemma fingerprint_of_concatenation_witness :
  post_id (mkEntry (str "ab") (str "c") [] [])
  = post_id (mkEntry (str "a") (str "bc") [] [])
  /\ exists x y,
       x <> y
       /\ encode (id wallet_entry ++ link wallet_entry) = Some x
       /\ encode (id chat_entry ++ link chat_entry) = Some y
       /\ Sha256.hexdigest (str "t1http://x") = Sha256.hexdigest x
       /\ Sha256.hexdigest (str "t2http://y") = Sha256.hexdigest y
       /\ (Sha256.hexdigest (str "t1http://x")
           = Sha256.hexdigest (str "t2http://y")
           <-> Sha256.digest x = Sha256.digest y).
Proof.
  split.
  - apply (proj1 (fingerprint_of_concatenation
                    (mkEntry (str "ab") (str "c") [] [])
                    (mkEntry (str "a") (str "bc") [] []))).
    reflexivity.
  - apply (proj1 (proj2 (proj2 (fingerprint_of_concatenation
                                  wallet_entry chat_entry)))).
    + discriminate.
    + vm_compute. reflexivity.
    + vm_compute. reflexivity.
Defined.

(** C2 as stated does not hold: two items that differ in id and in link have
    the same fingerprint, because only the concatenation is hashed. *)
Lemma fingerprint_collision :
  id (mkEntry (str "ab") (str "c") [] [])
  <> id (mkEntry (str "a") (str "bc") [] [])
  /\ link (mkEntry (str "ab") (str "c") [] [])
     <> link (mkEntry (str "a") (str "bc") [] [])
  /\ post_id (mkEntry (str "ab") (str "c") [] [])
     = post_id (mkEntry (str "a") (str "bc") [] [])
  /\ post_id (mkEntry (str "ab") (str "c") [] [])
     = Some (Sha256.hexdigest (str "abc")).
Proof.
  repeat split; try discriminate; vm_compute; reflexivity.
Qed.

(** ** The further statements on sample inputs *)

Lemma send_worker_posts_once_witness :
  send_worker_io delivered initial = []
  /\ exists sleeps,
       send_worker_io delivered two_queued
       = map Sleep sleeps ++ [Post (firstn 4000 (str "first"))]
       /\ (length sleeps <= 2)%nat
       /\ Forall (fun d => (0 < d)%Q) sleeps
       /\ (length (firstn 4000 (str "first")) <= 4000)%nat
       /\ (length (firstn 4000 (str "first")) <= length (str "first"))%nat.
Proof.
  split.
  - apply (proj1 (send_worker_posts_once delivered initial)). reflexivity.
  - apply (proj2 (send_worker_posts_once delivered two_queued)
             (str "first") [str "second"]).
    reflexivity.
Defined.

Lemma send_worker_spacing_witness :
  send_worker_io delivered two_queued = [Post (firstn 4000 (str "first"))]
  /\ exists d,
       send_worker_io half_second_later sent_before
       = [Sleep d; Post (firstn 4000 (str "first"))]
       /\ ((3400000001 # 2) + d == (1700000000 # 1) + SEND_INTERVAL)%Q.
Proof.
  split.
  - apply (proj1 (send_worker_spacing delivered two_queued
                    (str "first") [str "second"] eq_refl)).
    discriminate.
  - apply (proj2 (send_worker_spacing
                    half_second_later
                    sent_before (str "first") [str "second"] eq_refl)).
    + right. split; [discriminate|vm_compute; reflexivity].
    + right. split; [discriminate|vm_compute; reflexivity].
    + discriminate.
    + reflexivity.
Defined.

Lemma seen_setitem_lookup_witness :
  seen_get (str "a") (seen_setitem (str "a") (9 # 1) two_seen) = Some (9 # 1)
  /\ seen_get (str "b") (seen_setitem (str "a") (9 # 1) two_seen)
     = Some (6 # 1)
  /\ map fst (seen_setitem (str "a") (9 # 1) two_seen) = [str "a"; str "b"]
  /\ seen_setitem (str "c") (9 # 1) two_seen
     = two_seen ++ [(str "c", 9 # 1)]
  /\ NoDup (map fst (seen_setitem (str "c") (9 # 1) two_seen)).
Proof.
  pose proof (seen_setitem_lookup (str "a") (9 # 1) two_seen)
    as (H1 & H2 & H3 & _).
  pose proof (seen_setitem_lookup (str "c") (9 # 1) two_seen)
    as (_ & _ & _ & H4 & H5).
  split; [exact H1|].
  split; [exact (H2 (str "b") ltac:(discriminate))|].
  split; [exact (H3 eq_refl)|].
  split; [exact (H4 eq_refl)|].
  apply H5. repeat constructor; simpl; intuition discriminate.
Defined.

Lemma poll_appends_at_most_15_witness :
  backoff (poll only_listed 4300 ascii_words (9 # 1) (str "Bitcoin")
             (Some [wallet_entry; chat_entry]) two_queued) = 0
  /\ (exists new,
        queue (poll only_listed 4300 ascii_words (9 # 1) (str "Bitcoin")
                 (Some [wallet_entry; chat_entry]) two_queued)
        = [str "first"; str "second"] ++ new
        /\ (length new <= 15)%nat
        /\ (length new <= 2)%nat).
Proof.
  pose proof (poll_appends_at_most_15 only_listed 4300 ascii_words (9 # 1)
                (str "Bitcoin") (Some [wallet_entry; chat_entry])
                two_queued) as (H1 & _ & _ & (new & Hq & Hl & Hes) & _).
  split; [exact H1|]. exists new.
  split; [exact Hq|]. split; [exact Hl|].
  exact (Hes [wallet_entry; chat_entry] eq_refl).
Defined.

Lemma heartbeat_cadence_witness :
  (HEARTBEAT_INTERVAL < (2000 # 1) - last_heartbeat initial)%Q
  /\ heartbeat (3000 # 1) (heartbeat (2000 # 1) initial)
     = heartbeat (2000 # 1) initial
  /\ queue (heartbeat (4000 # 1) (heartbeat (2000 # 1) initial))
     = [HEARTBEAT_MSG; HEARTBEAT_MSG].
Proof.
  assert (H : (HEARTBEAT_INTERVAL < (2000 # 1) - last_heartbeat initial)%Q)
    by reflexivity.
  split; [exact H|]. split.
  - apply (proj1 (proj2 (proj2
             (heartbeat_cadence (2000 # 1) (3000 # 1) initial H)))).
    discriminate.
  - apply (proj2 (proj2 (proj2
             (heartbeat_cadence (2000 # 1) (4000 # 1) initial H)))).
    reflexivity.
Defined.

Lemma rss_url_injective_witness :
  rss_url (str "Bitcoin") = str "https://www.reddit.com/r/Bitcoin/new/.rss"
  /\ (rss_url (str "Bitcoin") = rss_url (str "Bitcoin") ->
      str "Bitcoin" = str "Bitcoin").
Proof.
  split; [reflexivity|].
  exact (proj1 (rss_url_injective (str "Bitcoin") (str "Bitcoin"))).
Defined.

Lemma safe_output_is_escaped_witness :
  safe only_listed 4300 (str "<i>a</i> < b & 'c'")
  = Some (str "a &lt; b &amp; &#x27;c&#x27;")
  /\ Forall (fun c => c <> LT /\ c <> GT /\ c <> QUOT /\ c <> APOS)
            (str "a &lt; b &amp; &#x27;c&#x27;")
  /\ exists z,
       str "a &lt; b &amp; &#x27;c&#x27;" = escape z
       /\ unescape only_listed 4300 (str "a &lt; b &amp; &#x27;c&#x27;")
          = Some z
       /\ quiet tag z.
Proof.
  assert (H : safe only_listed 4300 (str "<i>a</i> < b & 'c'")
              = Some (str "a &lt; b &amp; &#x27;c&#x27;"))
    by (vm_compute; reflexivity).
  split; [exact H|].
  exact (safe_output_is_escaped only_listed 4300 ascii_words _ _ H).
Defined.

Lemma safe_output_whitespace_witness :
  safe only_listed 4300 ([9; 160] ++ str "a" ++ [10; 13; 32] ++ str "b ")
  = Some (str "a b")
  /\ tidy (str "a b") /\ ends_ok (str "a b") /\ strip (str "a b") = str "a b".
Proof.
  assert (H : safe only_listed 4300
                ([9; 160] ++ str "a" ++ [10; 13; 32] ++ str "b ")
              = Some (str "a b")) by (vm_compute; reflexivity).
  split; [exact H|].
  exact (safe_output_whitespace only_listed 4300 ascii_words _ _ H).
Defined.

Lemma safe_plain_text_witness :
  safe only_listed 4300 (str "Wallet locked after KYC")
  = Some (str "Wallet locked after KYC").
Proof.
  apply safe_plain_text.
  - repeat constructor.
  - vm_compute. repeat split; try discriminate.
  - split; reflexivity.
Defined.

Lemma safe_whitespace_only_witness :
  safe only_listed 4300 [32; 9; 10; 160; 8232] = Some [].
Proof. apply safe_whitespace_only. repeat constructor. Defined.

Lemma post_id_raises_on_surrogates_witness :
  post_id surrogate_entry = None
  /\ exists fp, post_id wallet_entry = Some fp.
Proof.
  split.
  - apply (proj1 (post_id_raises_on_surrogates surrogate_entry)).
    left. reflexivity.
  - apply (proj2 (post_id_raises_on_surrogates wallet_entry)).
    repeat constructor.
Defined.

Lemma post_id_is_64_hex_digits_witness :
  length (Sha256.hexdigest (str "t1http://x")) = 64%nat
  /\ forallb is_hex_lower (Sha256.hexdigest (str "t1http://x")) = true.
Proof.
  apply (post_id_is_64_hex_digits wallet_entry). vm_compute. reflexivity.
Defined.

Lemma process_entry_raises_only_witness :
  process_entry only_listed 4300 ascii_words (9 # 1) (str "Bitcoin")
    surrogate_entry initial = None
  /\ (post_id surrogate_entry = None
      \/ safe only_listed 4300 (title surrogate_entry) = None
      \/ safe only_listed 4300 (summary surrogate_entry) = None).
Proof.
  assert (H : process_entry only_listed 4300 ascii_words (9 # 1)
                (str "Bitcoin") surrogate_entry initial = None)
    by (vm_compute; reflexivity).
  split; [exact H|].
  refine (proj1 (process_entry_raises_only only_listed 4300 ascii_words
                   (9 # 1) (str "Bitcoin") surrogate_entry initial _ H)).
  simpl. intuition discriminate.
Defined.
